(** * The Oak / Magnolia tree-walking evaluator (eval.go)

    A shallow embedding of the value model, the scope chain and
    [Context.evalExpr], with the properties of the runtime semantics that
    the specification states about them. *)

From Stdlib Require Import ZArith Floats.
From stdpp Require Import gmap strings list fin_maps pretty.

Set Warnings "-register-all".

Open Scope string_scope.

(** ** Byte slice helpers *)

(** [zeroExtend]: the slice itself when it has [max] bytes or more, and
    otherwise a new slice of [max] zero bytes with [s] copied to its
    start. [max] is a Go [int]. *)
Definition zeroExtend (s : list Byte.byte) (max : Z) : list Byte.byte :=
  if (max <=? Z.of_nat (length s))%Z then s
  else s ++ replicate (Z.to_nat max - length s) Byte.x00.

(** [maxLen] *)
Definition maxLen (a b : list Byte.byte) : Z :=
  let alen := Z.of_nat (length a) in
  let blen := Z.of_nat (length b) in
  if (alen <? blen)%Z then blen else alen.

(** ** Syntax trees *)

(** Modelled from the spec: the node types of the parser (its source file is
    not part of the evaluator). The constructors and their fields are the
    ones [evalExpr] switches on and reads: [payload], [isInteger],
    [intPayload], [floatPayload], [elems], [entries] with [key] and [val],
    [name], [args], [body], [isLocal], [left], [right], [fn], [cond],
    [branches] with [target] and [body], [exprs]. The operator of a unary
    or binary node is a token; the evaluator never looks at it. *)
Inductive astNode : Type :=
| emptyNode
| nullNode
| stringNode (payload : string)
| numberNode (isInteger : bool) (intPayload : Z) (floatPayload : float)
| booleanNode (payload : bool)
| atomNode (payload : string)
| listNode (elems : list astNode)
| objectNode (entries : list (astNode * astNode))
| fnNodeE (n : fnNode)
| identifierNode (payload : string)
| assignmentNode (isLocal : bool) (left right : astNode)
| propertyAccessNode (left right : astNode)
| unaryNode (op : string) (right : astNode)
| binaryNode (op : string) (left right : astNode)
| fnCallNode (fn : astNode) (args : list astNode)
| ifExprNode (cond : astNode) (branches : list (astNode * astNode))
| blockNode (exprs : list astNode)
with fnNode : Type :=
| mkFnNode (name : string) (args : list string) (body : astNode).

Definition fn_name (d : fnNode) : string := let 'mkFnNode n _ _ := d in n.
Definition fn_args (d : fnNode) : list string := let 'mkFnNode _ a _ := d in a.
Definition fn_body (d : fnNode) : astNode := let 'mkFnNode _ _ b := d in b.

(** ** Values *)

(** A [map[string]Value] is a reference: the scope structs that are copied
    around share it. [loc] addresses such a map in the store. *)
Definition loc := nat.

(** [type scope struct { parent *scope; vars map[string]Value }]. Neither
    field is ever reassigned after the struct is built, so a [*scope] is
    modelled by the struct it points to. *)
Inductive scope : Type :=
  mkScope { parent : option scope; vars : loc }.

(** A [*fnNode]: the address of the copy of the node made by the evaluation
    of the function literal, and the (never written) node stored there. *)
Record defnPtr : Type := mkPtr { addr : nat; target : fnNode }.

(** The implementations of the [Value] interface. [IntValue] is an int64
    (the evaluator does no arithmetic on it), [StringValue] a byte slice.
    [BuiltinFnValue] is declared with the standard library, outside
    eval.go: it is kept as the name of a native function. *)
Inductive Value : Type :=
| EmptyValue
| NullValue
| StringValue (s : string)
| IntValue (z : Z)
| FloatValue (f : float)
| BoolValue (b : bool)
| AtomValue (a : string)
| ListValue (l : list Value)
| ObjectValue (m : gmap string Value)
| FnValue (defn : defnPtr) (sc : scope)
| BuiltinFnValue (id : string).

(** The interned constants of eval.go. *)
Definition empty_ : Value := EmptyValue.
Definition null : Value := NullValue.
Definition mgnTrue : Value := BoolValue true.
Definition mgnFalse : Value := BoolValue false.

(** ** Results *)

Record runtimeError : Type := mkRuntimeError { reason : string }.

(** The ways a Go evaluation stops without returning: a call of [panic]
    with a message, or a run-time panic of the language. *)
Inductive panic : Type :=
| GoPanic (msg : string)
| IndexOutOfRange (i : Z) (len : nat)
| SliceBoundsOutOfRange (hi cap : nat)
| NilMapAssign.

(** [Ok v] is [return v, nil]; [Err e] is [return nil, e]; [OutOfFuel] is
    the model's own: the recursion bound of [evalExpr] was reached. *)
Inductive Res (A : Type) : Type :=
| Ok (a : A)
| Err (e : runtimeError)
| Panic (p : panic)
| OutOfFuel.
Arguments Ok {A} a.
Arguments Err {A} e.
Arguments Panic {A} p.
Arguments OutOfFuel {A}.

(** ** What eval.go takes from the rest of the interpreter *)

(** [strconv.FormatFloat(f, 'g', -1, 64)], the [String] methods of the
    syntax nodes, and the methods and the native code of a builtin. *)
Record Natives : Type := mkNatives {
  FormatFloat : float -> string;
  nodeString : astNode -> string;
  builtinString : string -> string;
  builtinEq : string -> Value -> bool;
  builtinCall : string -> list Value -> Res Value
}.

(** [strings.Join]. *)
Fixpoint Join (elems : list string) (sep : string) : string :=
  match elems with
  | [] => ""
  | [s] => s
  | s :: rest => s +:+ sep +:+ Join rest sep
  end.

Section Methods.
Variable host : Natives.

(** *** String methods *)

Definition EmptyValue_String : string := "_".
Definition NullValue_String : string := "?".
Definition StringValue_String (v : string) : string := "'" +:+ v +:+ "'".
Definition IntValue_String (v : Z) : string := pretty v.
Definition FloatValue_String (v : float) : string := FormatFloat host v.
Definition BoolValue_String (v : bool) : string :=
  if v then "true" else "false".
Definition AtomValue_String (v : string) : string := ":" +:+ v.
Definition FnValue_String (defn : defnPtr) : string :=
  nodeString host (fnNodeE (target defn)).

(** [v.String()] through the interface. The entries of an object are
    listed in the order of [map_to_list]; Go leaves the order of [range]
    over a map open. *)
Fixpoint Value_String (v : Value) : string :=
  match v with
  | EmptyValue => EmptyValue_String
  | NullValue => NullValue_String
  | StringValue s => StringValue_String s
  | IntValue z => IntValue_String z
  | FloatValue f => FloatValue_String f
  | BoolValue b => BoolValue_String b
  | AtomValue a => AtomValue_String a
  | ListValue l =>
      "[" +:+ Join (map Value_String l) ", " +:+ "]"
  | ObjectValue m =>
      "{" +:+ Join (map_fold (fun key val acc =>
                      (key +:+ ": " +:+ Value_String val) :: acc) [] m) ", "
          +:+ "}"
  | FnValue defn _ => FnValue_String defn
  | BuiltinFnValue id => builtinString host id
  end.

(** *** Eq methods *)

Definition EmptyValue_Eq (u : Value) : bool := true.

Definition NullValue_Eq (u : Value) : bool :=
  match u with
  | EmptyValue => true
  | NullValue => true
  | _ => false
  end.

Definition StringValue_Eq (v : string) (u : Value) : bool :=
  match u with
  | EmptyValue => true
  | StringValue w => bool_decide (v = w)
  | _ => false
  end.

Definition IntValue_Eq (v : Z) (u : Value) : bool :=
  match u with
  | EmptyValue => true
  | IntValue w => Z.eqb v w
  | _ => false
  end.

Definition FloatValue_Eq (v : float) (u : Value) : bool :=
  match u with
  | EmptyValue => true
  | FloatValue w => PrimFloat.eqb v w
  | _ => false
  end.

Definition BoolValue_Eq (v : bool) (u : Value) : bool :=
  match u with
  | EmptyValue => true
  | BoolValue w => Bool.eqb v w
  | _ => false
  end.

Definition AtomValue_Eq (v : string) (u : Value) : bool :=
  match u with
  | EmptyValue => true
  | AtomValue w => bool_decide (v = w)
  | _ => false
  end.

(** The one [Eq] without the test for the empty value: *)
Definition FnValue_Eq (defn : defnPtr) (sc : scope) (u : Value) : bool :=
  match u with
  | FnValue wdefn _ => Nat.eqb (addr defn) (addr wdefn)
  | _ => false
  end.

(** [v.Eq(u)] through the interface. The loops of [ListValue.Eq] and
    [ObjectValue.Eq] return false at the first difference. *)
Fixpoint Value_Eq (v u : Value) {struct v} : bool :=
  match v with
  | EmptyValue => EmptyValue_Eq u
  | NullValue => NullValue_Eq u
  | StringValue s => StringValue_Eq s u
  | IntValue z => IntValue_Eq z u
  | FloatValue f => FloatValue_Eq f u
  | BoolValue b => BoolValue_Eq b u
  | AtomValue a => AtomValue_Eq a u
  | ListValue l =>
      match u with
      | EmptyValue => true
      | ListValue w =>
          if negb (Nat.eqb (length l) (length w)) then false
          else (fix loop (l w : list Value) {struct l} : bool :=
                  match l, w with
                  | el :: l', wi :: w' =>
                      if negb (Value_Eq el wi) then false else loop l' w'
                  | _, _ => true
                  end) l w
      | _ => false
      end
  | ObjectValue m =>
      match u with
      | EmptyValue => true
      | ObjectValue w =>
          if negb (Nat.eqb (size m) (size w)) then false
          else map_fold (fun key val acc =>
                 acc && match w !! key with
                        | Some wVal => Value_Eq val wVal
                        | None => false
                        end) true m
      | _ => false
      end
  | FnValue defn sc => FnValue_Eq defn sc u
  | BuiltinFnValue id => builtinEq host id u
  end.

End Methods.

(** ** The store *)

(** The maps of all scopes built so far, and the number of [fnNode] copies
    allocated for function values. An address outside [maps] is a nil map:
    reading it finds nothing, writing to it panics. *)
Record Store : Type := mkStore {
  maps : list (gmap string Value);
  defns : nat
}.

Definition NewStore : Store := mkStore [] 0.

Definition M (A : Type) : Type := Store -> Res A * Store.

Definition ret {A} (a : A) : M A := fun h => (Ok a, h).
Definition fail {A} (e : runtimeError) : M A := fun h => (Err e, h).
Definition throw {A} (p : panic) : M A := fun h => (Panic p, h).
Definition lift {A} (r : Res A) : M A := fun h => (r, h).

Definition bind {A B} (c : M A) (k : A -> M B) : M B :=
  fun h =>
    match c h with
    | (Ok a, h') => k a h'
    | (Err e, h') => (Err e, h')
    | (Panic p, h') => (Panic p, h')
    | (OutOfFuel, h') => (OutOfFuel, h')
    end.

Notation "x <- c ;; k" := (bind c (fun x => k))
  (at level 100, c at next level, right associativity).

(** [sc.vars[name]] *)
Definition mapIndex (l : loc) (name : string) (h : Store) : option Value :=
  match maps h !! l with
  | Some m => m !! name
  | None => None
  end.

(** [sc.vars[name] = v] *)
Definition mapAssign (l : loc) (name : string) (v : Value) : M unit :=
  fun h =>
    match maps h !! l with
    | Some m => (Ok tt, mkStore (<[l := <[name := v]> m]> (maps h)) (defns h))
    | None => (Panic NilMapAssign, h)
    end.

(** [map[string]Value{}] *)
Definition newMap : M loc :=
  fun h => (Ok (length (maps h)), mkStore (maps h ++ [∅]) (defns h)).

(** [&n] for the local copy [n] of a function node *)
Definition newDefn (n : fnNode) : M defnPtr :=
  fun h => (Ok (mkPtr (defns h) n), mkStore (maps h) (S (defns h))).

(** ** The scope chain *)

Definition undefined (name : string) : runtimeError :=
  mkRuntimeError (name +:+ " is undefined").

Fixpoint scope_get (sc : scope) (name : string) (h : Store) : Res Value :=
  match mapIndex (vars sc) name h with
  | Some v => Ok v
  | None =>
      match parent sc with
      | Some p => scope_get p name h
      | None => Err (undefined name)
      end
  end.

Definition scope_put (sc : scope) (name : string) (v : Value) : M unit :=
  mapAssign (vars sc) name v.

Fixpoint scope_update (sc : scope) (name : string) (v : Value) : M unit :=
  match sc with
  | mkScope parent vars =>
      fun h =>
        match mapIndex vars name h with
        | Some _ => mapAssign vars name v h
        | None =>
            match parent with
            | Some p => scope_update p name v h
            | None => (Err (undefined name), h)
            end
        end
  end.

(** [NewContext]: the global scope, with no parent and a new map. *)
Definition NewContext : scope * Store :=
  (mkScope None 0, mkStore [∅] 0).

(** ** The evaluator *)

Section Evaluator.
Variable host : Natives.

(** The type switch on the evaluated base of a property access
    (eval.go, lines 465 to 504). *)
Definition propertyAccess (left right : Value) : Res Value :=
  match left with
  | StringValue target =>
      match right with
      | IntValue byteIndex =>
          if (byteIndex <? 0)%Z
             || (Z.of_nat (String.length target) <? byteIndex)%Z
          then Ok null
          else match String.get (Z.to_nat byteIndex) target with
               | Some b => Ok (StringValue (String b EmptyString))
               | None =>
                   Panic (IndexOutOfRange byteIndex (String.length target))
               end
      | _ =>
          Err (mkRuntimeError
                 ("Cannot index into string with non-integer index "
                    +:+ Value_String host right))
      end
  | ListValue target =>
      match right with
      | IntValue listIndex =>
          if (listIndex <? 0)%Z
             || (Z.of_nat (length target) <? listIndex)%Z
          then Ok null
          else match target !! Z.to_nat listIndex with
               | Some el => Ok el
               | None => Panic (IndexOutOfRange listIndex (length target))
               end
      | _ =>
          Err (mkRuntimeError
                 ("Cannot index into list with non-integer index "
                    +:+ Value_String host right))
      end
  | ObjectValue target =>
      let objKey := Value_String host right in
      match target !! objKey with
      | Some val => Ok val
      | None => Ok null
      end
  | _ =>
      Err (mkRuntimeError
             ("Expected string, list, or object in left-hand side of property access, got "
                +:+ Value_String host left))
  end.

(** The type switch on the evaluated key of an object entry
    (eval.go, lines 394 to 405). *)
Definition keyString (key : Value) : Res string :=
  match key with
  | StringValue typedKey => Ok typedKey
  | IntValue typedKey => Ok (IntValue_String typedKey)
  | FloatValue typedKey => Ok (FloatValue_String host typedKey)
  | _ =>
      Err (mkRuntimeError
             ("Expected a string or number as object key, got "
                +:+ Value_String host key))
  end.

(** The loops of [evalExpr], over the evaluator [ev] of the nodes below. *)
Section Loops.
Variable ev : astNode -> scope -> M Value.

(** The elements of a list literal, and the arguments of a call. *)
Fixpoint evalElems (nodes : list astNode) (sc : scope) : M (list Value) :=
  match nodes with
  | [] => ret []
  | elNode :: rest =>
      el <- ev elNode sc ;;
      els <- evalElems rest sc ;;
      ret (el :: els)
  end.

Definition entryKey (key : astNode) (sc : scope) : M string :=
  match key with
  | identifierNode payload => ret payload
  | _ => k <- ev key sc ;; lift (keyString k)
  end.

Fixpoint evalEntries (entries : list (astNode * astNode)) (sc : scope)
    (obj : gmap string Value) : M (gmap string Value) :=
  match entries with
  | [] => ret obj
  | (key, val) :: rest =>
      ks <- entryKey key sc ;;
      v <- ev val sc ;;
      evalEntries rest sc (<[ks := v]> obj)
  end.

(** [for i, argName := range fn.defn.args { fnScope.put(argName, args[i]) }] *)
Fixpoint bindArgs (fnScope : scope) (names : list string) (i : nat)
    (args : list Value) : M unit :=
  match names with
  | [] => ret tt
  | argName :: rest =>
      match args !! i with
      | Some a =>
          _ <- scope_put fnScope argName a ;;
          bindArgs fnScope rest (S i) args
      | None => throw (IndexOutOfRange (Z.of_nat i) (length args))
      end
  end.

(** The call of a function value: [args[:len(fn.defn.args)]] panics when
    the capacity of [args], the number of argument nodes, is smaller. *)
Definition callFn (defn : defnPtr) (fsc : scope) (args : list Value)
    : M Value :=
  let arity := length (fn_args (target defn)) in
  if Nat.ltb (length args) arity
  then throw (SliceBoundsOutOfRange arity (length args))
  else
    let args := take arity args in
    l <- newMap ;;
    let fnScope := mkScope (Some fsc) l in
    _ <- bindArgs fnScope (fn_args (target defn)) 0 args ;;
    ev (fn_body (target defn)) fnScope.

Fixpoint evalBranches (cond : Value) (branches : list (astNode * astNode))
    (sc : scope) : M Value :=
  match branches with
  | [] => ret null
  | (target, body) :: rest =>
      t <- ev target sc ;;
      if Value_Eq host cond t then ev body sc
      else evalBranches cond rest sc
  end.

Fixpoint evalBlock (exprs : list astNode) (blockScope : scope)
    (returnVal : Value) : M Value :=
  match exprs with
  | [] => ret returnVal
  | expr :: rest =>
      v <- ev expr blockScope ;;
      evalBlock rest blockScope v
  end.

(** The body of [evalExpr]: the switch on the type of the node, with
    [ev] for the recursive calls. *)
Definition evalNode (node : astNode) (sc : scope) : M Value :=
  match node with
  | emptyNode => ret empty_
  | nullNode => ret null
  | stringNode payload => ret (StringValue payload)
  | numberNode isInteger intPayload floatPayload =>
      if isInteger then ret (IntValue intPayload)
      else ret (FloatValue floatPayload)
  | booleanNode payload => ret (BoolValue payload)
  | atomNode payload => ret (AtomValue payload)
  | listNode elems =>
      els <- evalElems elems sc ;;
      ret (ListValue els)
  | objectNode entries =>
      obj <- evalEntries entries sc ∅ ;;
      ret (ObjectValue obj)
  | fnNodeE n =>
      defn <- newDefn n ;;
      let fn := FnValue defn sc in
      _ <- (if bool_decide (fn_name n = "") then ret tt
            else scope_put sc (fn_name n) fn) ;;
      ret fn
  | identifierNode payload => fun h => (scope_get sc payload h, h)
  | assignmentNode isLocal nleft nright =>
      assignedValue <- ev nright sc ;;
      match nleft with
      | identifierNode payload =>
          _ <- (if isLocal then scope_put sc payload assignedValue
                else scope_update sc payload assignedValue) ;;
          ret assignedValue
      | listNode _ =>
          throw (GoPanic "list destructuring not implemented!")
      | objectNode _ =>
          throw (GoPanic "object destructuring not implemented!")
      | propertyAccessNode _ _ =>
          throw (GoPanic "assign to property not implemented!")
      | _ =>
          throw (GoPanic ("Illegal left-hand side of assignment in "
                            +:+ nodeString host node))
      end
  | propertyAccessNode nleft nright =>
      l <- ev nleft sc ;;
      r <- ev nright sc ;;
      lift (propertyAccess l r)
  | unaryNode _ _ => throw (GoPanic "unaryNode not implemented!")
  | binaryNode _ _ _ => throw (GoPanic "binaryNode not implemented!")
  | fnCallNode fn args =>
      maybeFn <- ev fn sc ;;
      argv <- evalElems args sc ;;
      match maybeFn with
      | FnValue defn fsc => callFn defn fsc argv
      | BuiltinFnValue id => lift (builtinCall host id argv)
      | _ =>
          fail (mkRuntimeError
                  (Value_String host maybeFn
                     +:+ " is not a function and cannot be called"))
      end
  | ifExprNode cond branches =>
      c <- ev cond sc ;;
      evalBranches c branches sc
  | blockNode exprs =>
      l <- newMap ;;
      evalBlock exprs (mkScope (Some sc) l) null
  end.

End Loops.

(** [Context.evalExpr]. The receiver is only passed on to the recursive
    calls. [fuel] bounds the depth of the recursion. *)
Fixpoint evalExpr (fuel : nat) (node : astNode) (sc : scope) : M Value :=
  match fuel with
  | O => lift OutOfFuel
  | S fuel' => evalNode (evalExpr fuel') node sc
  end.

(** [Context.evalProgram], in the global scope of the context. *)
Definition evalProgram (fuel : nat) (nodes : list astNode) (sc : scope)
    : M Value :=
  evalExpr fuel (blockNode nodes) sc.

End Evaluator.

(** ** Sample programs *)

(** A host with no builtins, for the closed examples. *)
Definition plainHost : Natives :=
  mkNatives (fun _ => "0.5") (fun _ => "fn") (fun id => id)
            (fun _ _ => false)
            (fun _ _ => Err (mkRuntimeError "no such builtin")).

Definition int (z : Z) : astNode := numberNode true z 0%float.
Definition str (s : string) : astNode := stringNode s.
Definition var (x : string) : astNode := identifierNode x.

(** A program run in a new context, as [Context.Eval] does once the source
    is parsed. *)
Definition run (host : Natives) (fuel : nat) (prog : list astNode)
    : Res Value * Store :=
  evalProgram host fuel prog NewContext.1 NewContext.2.

(** ** Notions used in the statements *)

(** The maps of a scope and of its ancestors, innermost first. *)
Fixpoint chain (sc : scope) : list loc :=
  vars sc :: match parent sc with
             | Some p => chain p
             | None => []
             end.

(** The store after the patterns of [branches] have been evaluated one
    after the other by [ev], when each of them gave a value that the
    subject [cond] is not equal to. *)
Fixpoint passBranches (host : Natives) (ev : astNode -> scope -> M Value)
    (cond : Value) (branches : list (astNode * astNode)) (sc : scope)
    (h : Store) : option Store :=
  match branches with
  | [] => Some h
  | (target, _) :: rest =>
      match ev target sc h with
      | (Ok t, h') =>
          if Value_Eq host cond t then None
          else passBranches host ev cond rest sc h'
      | _ => None
      end
  end.

(** [s] between single quotes, the display form of a string. *)
Definition quoted (s : string) : string := "'" +:+ s +:+ "'".

(** The store only grows: addresses of maps and of function nodes that
    have been handed out stay so. *)
Definition grows (h h' : Store) : Prop :=
  (defns h <= defns h')%nat /\ (length (maps h) <= length (maps h'))%nat.

Definition growing {A} (c : M A) : Prop :=
  forall h r h', c h = (r, h') -> grows h h'.

(** The key under which an entry is stored when its key node is an
    identifier or a string or number literal. *)
Definition literalKey (host : Natives) (key : astNode) : option string :=
  match key with
  | identifierNode payload => Some payload
  | stringNode payload => Some payload
  | numberNode true intPayload _ => Some (IntValue_String intPayload)
  | numberNode false _ floatPayload =>
      Some (FloatValue_String host floatPayload)
  | _ => None
  end.

(** The statement that reading an object, built by a literal with an
    entry whose key is the string [s], at the key value [s] gives null. *)
Definition string_key_reads_null (host : Natives) : Prop :=
  forall fuel entries s val sc h o h',
    (stringNode s, val) ∈ entries ->
    evalExpr host fuel (objectNode entries) sc h = (Ok (ObjectValue o), h') ->
    propertyAccess host (ObjectValue o) (StringValue s) = Ok null.

(** [c'] does what [c] does, whenever [c] does not stop for lack of
    fuel. *)
Definition settled {A} (c c' : M A) : Prop :=
  forall h r h', c h = (r, h') -> r <> OutOfFuel -> c' h = (r, h').

(** A scope whose maps are all allocated, and distinct from one another. *)
Definition scope_ok (h : Store) (sc : scope) : Prop :=
  NoDup (chain sc) /\ forall l, l ∈ chain sc -> (l < length (maps h))%nat.

(** Every map of [h] is still there in [h'], with the names it had and,
    unless it is the map [cur], with no other name. *)
Definition keeps_names (cur : loc) (h h' : Store) : Prop :=
  forall l m, maps h !! l = Some m ->
    exists m', maps h' !! l = Some m' /\ dom m ⊆ dom m' /\
               (l <> cur -> dom m' = dom m).

Definition local_to {A} (cur : loc) (c : M A) : Prop :=
  forall h r h', c h = (r, h') -> keeps_names cur h h'.

(** The depth of the lists and objects of a value. *)
Fixpoint depth (v : Value) : nat :=
  match v with
  | ListValue l => S (foldr (fun el acc => Nat.max (depth el) acc) 0%nat l)
  | ObjectValue m =>
      S (map_fold (fun _ val acc => Nat.max (depth val) acc) 0%nat m)
  | _ => 0%nat
  end.

(** A value with no float that differs from itself (a NaN) and no builtin
    in it. *)
Fixpoint plain (v : Value) : Prop :=
  match v with
  | FloatValue f => PrimFloat.eqb f f = true
  | BuiltinFnValue _ => False
  | ListValue l => foldr (fun el acc => plain el /\ acc) True l
  | ObjectValue m => map_fold (fun _ val acc => plain val /\ acc) True m
  | _ => True
  end.

(** A value with no empty value (the wildcard) and no builtin in it. *)
Fixpoint definite (v : Value) : Prop :=
  match v with
  | EmptyValue => False
  | BuiltinFnValue _ => False
  | ListValue l => foldr (fun el acc => definite el /\ acc) True l
  | ObjectValue m => map_fold (fun _ val acc => definite val /\ acc) True m
  | _ => True
  end.

(** The keys and the values that the entries of an object literal give,
    one pair for each entry, in the order of the entries: the replay of
    the loop of the literal that keeps what each round stores. *)
Fixpoint written (host : Natives) (ev : astNode -> scope -> M Value)
    (entries : list (astNode * astNode)) (sc : scope) (h : Store)
    : list (string * Value) :=
  match entries with
  | [] => []
  | (key, val) :: rest =>
      match entryKey host ev key sc h with
      | (Ok ks, h1) =>
          match ev val sc h1 with
          | (Ok v, h2) => (ks, v) :: written host ev rest sc h2
          | _ => []
          end
      | _ => []
      end
  end.

(** The value of the last pair of [w] with the key [k]. *)
Fixpoint lastWritten (k : string) (w : list (string * Value))
    : option Value :=
  match w with
  | [] => None
  | (k', v) :: rest =>
      match lastWritten k rest with
      | Some v' => Some v'
      | None => if bool_decide (k' = k) then Some v else None
      end
  end.

(** ** The monad *)

Lemma bind_Ok {A B} (c : M A) (k : A -> M B) h a h' :
  c h = (Ok a, h') -> bind c k h = k a h'.
Proof. intros E. unfold bind. by rewrite E. Qed.

Lemma bind_not_Ok {A B} (c : M A) (k : A -> M B) h :
  (forall a, (c h).1 <> Ok a) ->
  (bind c k h).2 = (c h).2 /\ forall b, (bind c k h).1 <> Ok b.
Proof.
  intros N. unfold bind. destruct (c h) as [[a|e|p|] h'] eqn:E; simpl in *;
    try (split; [reflexivity | intros b; discriminate]).
  by destruct (N a).
Qed.

Lemma bind_inv_Ok {A B} (c : M A) (k : A -> M B) h b h2 :
  bind c k h = (Ok b, h2) ->
  exists a h1, c h = (Ok a, h1) /\ k a h1 = (Ok b, h2).
Proof.
  unfold bind. destruct (c h) as [[a|e|p|] h1]; try discriminate.
  intros E. by exists a, h1.
Qed.

(** ** Equality of values *)

Section EqFacts.
Variable host : Natives.

Lemma Eq_empty_l (v : Value) : Value_Eq host empty_ v = true.
Proof. reflexivity. Qed.

(** Every variant of eval.go but the function value tests for the empty
    value first. *)
Lemma Eq_empty_r (v : Value) :
  (forall defn sc, v <> FnValue defn sc) ->
  (forall id, v <> BuiltinFnValue id) ->
  Value_Eq host v empty_ = true.
Proof.
  intros Hfn Hbi. destruct v; try reflexivity.
  - by destruct (Hfn defn sc).
  - by destruct (Hbi id).
Qed.

Lemma FnValue_Eq_spec (defn : defnPtr) (sc : scope) (u : Value) :
  Value_Eq host (FnValue defn sc) u = true <->
  exists wdefn wsc, u = FnValue wdefn wsc /\ addr defn = addr wdefn.
Proof.
  simpl. unfold FnValue_Eq. split.
  - destruct u; try discriminate. intros E%Nat.eqb_eq. eauto.
  - intros (wdefn & wsc & -> & E). by apply Nat.eqb_eq.
Qed.

End EqFacts.

(** C1. The claim is that [v.Eq(Empty)] and [Empty.Eq(v)] are true for
    every value [v], function values included. [Empty.Eq(v)] is true for
    every [v], and [v.Eq(Empty)] for every variant of eval.go that is not a
    function value; but [FnValue.Eq] has no case for the empty value, and
    a function value compared with it gives false. *)
Theorem FnValue_Eq_empty (host : Natives) :
  (forall v, Value_Eq host empty_ v = true) /\
  (forall defn sc, Value_Eq host (FnValue defn sc) empty_ = false) /\
  (Value_Eq host null empty_ = true /\
   (forall s, Value_Eq host (StringValue s) empty_ = true) /\
   (forall z, Value_Eq host (IntValue z) empty_ = true) /\
   (forall f, Value_Eq host (FloatValue f) empty_ = true) /\
   (forall b, Value_Eq host (BoolValue b) empty_ = true) /\
   (forall a, Value_Eq host (AtomValue a) empty_ = true) /\
   (forall l, Value_Eq host (ListValue l) empty_ = true) /\
   (forall m, Value_Eq host (ObjectValue m) empty_ = true)).
Proof. repeat split. Qed.

(** ** Property access *)

Section PropertyAccess.
Variable host : Natives.

Lemma get_lt (s : string) (n : nat) :
  (n < String.length s)%nat -> is_Some (String.get n s).
Proof.
  revert n. induction s as [|a s IH]; intros n Hn; simpl in *; [lia|].
  destruct n as [|n]; [eauto|]. apply IH. lia.
Qed.

Lemma get_ge (s : string) (n : nat) :
  (String.length s <= n)%nat -> String.get n s = None.
Proof.
  revert n. induction s as [|a s IH]; intros n Hn; simpl in *.
  - by destruct n.
  - destruct n as [|n]; [lia|]. apply IH. lia.
Qed.

(** Inside the bounds the read returns the byte, as a string of length
    one. *)
Lemma string_index_inside (s : string) (i : Z) :
  (0 <= i < Z.of_nat (String.length s))%Z ->
  exists b, String.get (Z.to_nat i) s = Some b /\
    propertyAccess host (StringValue s) (IntValue i)
      = Ok (StringValue (String b EmptyString)).
Proof.
  intros Hi. destruct (get_lt s (Z.to_nat i)) as [b Hb]; [lia|].
  exists b. split; [done|]. unfold propertyAccess.
  destruct (Z.ltb_spec i 0); [lia|].
  destruct (Z.ltb_spec (Z.of_nat (String.length s)) i); [lia|]. simpl.
  by rewrite Hb.
Qed.

Lemma list_index_inside (l : list Value) (i : Z) :
  (0 <= i < Z.of_nat (length l))%Z ->
  exists el, l !! Z.to_nat i = Some el /\
    propertyAccess host (ListValue l) (IntValue i) = Ok el.
Proof.
  intros Hi. destruct (lookup_lt_is_Some_2 l (Z.to_nat i)) as [el Hel]; [lia|].
  exists el. split; [done|]. unfold propertyAccess.
  destruct (Z.ltb_spec i 0); [lia|].
  destruct (Z.ltb_spec (Z.of_nat (length l)) i); [lia|]. simpl.
  by rewrite Hel.
Qed.

(** Below zero and above the length the read returns null. *)
Lemma index_outside (i : Z) :
  (forall s, (i < 0 \/ Z.of_nat (String.length s) < i)%Z ->
     propertyAccess host (StringValue s) (IntValue i) = Ok null) /\
  (forall l, (i < 0 \/ Z.of_nat (length l) < i)%Z ->
     propertyAccess host (ListValue l) (IntValue i) = Ok null).
Proof.
  split; intros x Hi; unfold propertyAccess.
  - destruct (Z.ltb_spec i 0); [done|].
    destruct (Z.ltb_spec (Z.of_nat (String.length x)) i); [done|lia].
  - destruct (Z.ltb_spec i 0); [done|].
    destruct (Z.ltb_spec (Z.of_nat (length x)) i); [done|lia].
Qed.

(** An index that is not an integer is a runtime error. *)
Lemma index_not_int (r : Value) :
  (forall i, r <> IntValue i) ->
  (forall s, propertyAccess host (StringValue s) r
     = Err (mkRuntimeError
              ("Cannot index into string with non-integer index "
                 +:+ Value_String host r))) /\
  (forall l, propertyAccess host (ListValue l) r
     = Err (mkRuntimeError
              ("Cannot index into list with non-integer index "
                 +:+ Value_String host r))).
Proof.
  intros N. split; intros x; destruct r; try reflexivity; by destruct (N z).
Qed.

End PropertyAccess.

(** C2. The claim is that a read of a String or a List at an Int index
    never fails and gives null for every index outside [0, length), the
    length itself included. The bound test of eval.go lets the length
    through ([>] where [>=] is meant): at the index equal to the length
    the read of the slice panics, for every string and every list, and so
    does the evaluation of ['abc'.(3)]. *)
Theorem propertyAccess_at_length (host : Natives) :
  (forall s,
     propertyAccess host (StringValue s)
       (IntValue (Z.of_nat (String.length s)))
     = Panic (IndexOutOfRange (Z.of_nat (String.length s))
                (String.length s))) /\
  (forall l,
     propertyAccess host (ListValue l) (IntValue (Z.of_nat (length l)))
     = Panic (IndexOutOfRange (Z.of_nat (length l)) (length l))) /\
  (forall fuel sc h,
     evalExpr host (2 + fuel) (propertyAccessNode (str "abc") (int 3)) sc h
     = (Panic (IndexOutOfRange 3 3), h)).
Proof.
  split; [|split].
  - intros s. unfold propertyAccess.
    destruct (Z.ltb_spec (Z.of_nat (String.length s)) 0); [lia|].
    rewrite Z.ltb_irrefl. simpl. rewrite Nat2Z.id.
    by rewrite get_ge.
  - intros l. unfold propertyAccess.
    destruct (Z.ltb_spec (Z.of_nat (length l)) 0); [lia|].
    rewrite Z.ltb_irrefl. simpl. rewrite Nat2Z.id.
    by rewrite lookup_ge_None_2.
  - reflexivity.
Qed.

(** ** Calls *)

Section Calls.
Variable host : Natives.
Variable ev : astNode -> scope -> M Value.

(** With fewer arguments than parameters the slice expression of the call
    is out of range. *)
Lemma callFn_too_few (defn : defnPtr) (fsc : scope) (args : list Value)
    (h : Store) :
  (length args < length (fn_args (target defn)))%nat ->
  callFn ev defn fsc args h
  = (Panic (SliceBoundsOutOfRange (length (fn_args (target defn)))
              (length args)), h).
Proof.
  intros Hlt. unfold callFn.
  destruct (Nat.ltb_spec (length args) (length (fn_args (target defn))));
    [done|lia].
Qed.

Lemma bindArgs_app (fnScope : scope) (names : list string) (i : nat)
    (args extra : list Value) (h : Store) :
  (i + length names <= length args)%nat ->
  bindArgs fnScope names i (args ++ extra) h = bindArgs fnScope names i args h.
Proof.
  revert i h. induction names as [|x names IH]; intros i h Hle; [done|].
  simpl in *. rewrite lookup_app_l by lia.
  destruct (args !! i) as [a|] eqn:Ea.
  - unfold bind. destruct (scope_put fnScope x a h) as [[[]|e|p|] h'];
      try done. apply IH. lia.
  - apply lookup_ge_None in Ea. lia.
Qed.

(** The arguments beyond the parameters do not reach the call. *)
Lemma callFn_extra (defn : defnPtr) (fsc : scope) (args extra : list Value)
    (h : Store) :
  length args = length (fn_args (target defn)) ->
  callFn ev defn fsc (args ++ extra) h = callFn ev defn fsc args h.
Proof.
  intros Hlen. unfold callFn. rewrite length_app.
  destruct (Nat.ltb_spec (length args + length extra)
              (length (fn_args (target defn)))); [lia|].
  destruct (Nat.ltb_spec (length args) (length (fn_args (target defn))));
    [lia|].
  rewrite <- Hlen. rewrite take_app_length. by rewrite firstn_all.
Qed.

End Calls.

Lemma evalElems_length (ev : astNode -> scope -> M Value)
    (nodes : list astNode) (sc : scope) (h : Store) (vs : list Value)
    (h' : Store) :
  evalElems ev nodes sc h = (Ok vs, h') -> length vs = length nodes.
Proof.
  revert h vs h'. induction nodes as [|n nodes IH]; intros h vs h'; simpl.
  - by intros [= <- _].
  - intros E0. apply bind_inv_Ok in E0 as (v & h1 & _ & E0).
    apply bind_inv_Ok in E0 as (vs' & h2 & E & E0).
    injection E0 as <- _. simpl. f_equal. by eapply IH.
Qed.

(** Whatever the callee and the arguments are, a call of a function value
    with fewer argument nodes than parameters panics once they are
    evaluated. *)
Lemma fnCall_too_few (host : Natives) (fuel : nat) (fn : astNode)
    (args : list astNode) (sc : scope) (h : Store) (defn : defnPtr)
    (fsc : scope) (h1 : Store) (argv : list Value) (h2 : Store) :
  evalExpr host fuel fn sc h = (Ok (FnValue defn fsc), h1) ->
  evalElems (evalExpr host fuel) args sc h1 = (Ok argv, h2) ->
  (length args < length (fn_args (target defn)))%nat ->
  evalExpr host (S fuel) (fnCallNode fn args) sc h
  = (Panic (SliceBoundsOutOfRange (length (fn_args (target defn)))
              (length args)), h2).
Proof.
  intros Ef Ea Hlt. simpl. rewrite (bind_Ok _ _ _ _ _ Ef).
  rewrite (bind_Ok _ _ _ _ _ Ea).
  rewrite <- (evalElems_length _ _ _ _ _ _ Ea) in *.
  by apply callFn_too_few.
Qed.

(** Whatever the pattern and the right-hand side are, the assignment to
    a list pattern panics once the right-hand side is evaluated. *)
Lemma assignment_to_list_pattern (host : Natives) (fuel : nat)
    (isLocal : bool) (elems : list astNode) (rhs : astNode) (sc : scope)
    (h : Store) (v : Value) (h1 : Store) :
  evalExpr host fuel rhs sc h = (Ok v, h1) ->
  evalExpr host (S fuel) (assignmentNode isLocal (listNode elems) rhs) sc h
  = (Panic (GoPanic "list destructuring not implemented!"), h1).
Proof. intros E. simpl. by rewrite (bind_Ok _ _ _ _ _ E). Qed.

(** C3. The claim is that a call with fewer arguments than parameters
    does not fault and binds the missing parameters to null, and that
    arguments beyond the parameters are ignored. The second half holds
    ([callFn_extra]); but a call with fewer arguments panics in the slice
    expression [args[:len(fn.defn.args)]], whose bound is above the
    capacity of [args] ([fnCall_too_few]): in [(fn(a, b) b)(1)] no
    parameter is bound and the body is not evaluated. *)
Theorem call_with_missing_argument (host : Natives) (fuel : nat)
    (sc : scope) (h : Store) :
  evalExpr host (3 + fuel)
    (fnCallNode (fnNodeE (mkFnNode "" ["a"; "b"] (var "b"))) [int 1]) sc h
  = (Panic (SliceBoundsOutOfRange 2 1), mkStore (maps h) (S (defns h))).
Proof. reflexivity. Qed.

(** C7. The claim is that a binary operator node evaluates both operands
    and applies the operator, with a type-mismatch error for operands that
    do not fit. The case of eval.go is a placeholder: whatever the
    operator and the operands, it panics before anything is evaluated. *)
Theorem binaryNode_panics (host : Natives) (fuel : nat) (op : string)
    (nleft nright : astNode) (sc : scope) (h : Store) :
  evalExpr host (S fuel) (binaryNode op nleft nright) sc h
  = (Panic (GoPanic "binaryNode not implemented!"), h).
Proof. reflexivity. Qed.

(** C8. The claim is that an assignment to a list pattern binds each
    name of the pattern to the element of the right-hand list at its
    position, with an arity error when the lengths differ. In eval.go the
    right-hand side is evaluated and the assignment then panics
    ([assignment_to_list_pattern]): [[b, c] := [2, 3]] binds nothing. *)
Theorem list_pattern_assignment_panics (host : Natives) (fuel : nat)
    (isLocal : bool) (sc : scope) (h : Store) :
  evalExpr host (3 + fuel)
    (assignmentNode isLocal (listNode [var "b"; var "c"])
       (listNode [int 2; int 3])) sc h
  = (Panic (GoPanic "list destructuring not implemented!"), h).
Proof. reflexivity. Qed.

(** ** The store grows *)

Lemma grows_refl (h : Store) : grows h h.
Proof. by split. Qed.

Lemma grows_trans (h1 h2 h3 : Store) :
  grows h1 h2 -> grows h2 h3 -> grows h1 h3.
Proof. intros [] []. split; lia. Qed.

Lemma growing_ret {A} (a : A) : growing (ret a).
Proof. intros h r h' [= <- <-]. apply grows_refl. Qed.

Lemma growing_fail {A} (e : runtimeError) : growing (@fail A e).
Proof. intros h r h' [= <- <-]. apply grows_refl. Qed.

Lemma growing_throw {A} (p : panic) : growing (@throw A p).
Proof. intros h r h' [= <- <-]. apply grows_refl. Qed.

Lemma growing_lift {A} (r : Res A) : growing (lift r).
Proof. intros h r' h' [= <- <-]. apply grows_refl. Qed.

Lemma growing_bind {A B} (c : M A) (k : A -> M B) :
  growing c -> (forall a, growing (k a)) -> growing (bind c k).
Proof.
  intros Hc Hk h r h'. unfold bind.
  destruct (c h) as [[a|e|p|] h1] eqn:E; specialize (Hc _ _ _ E).
  - intros E'. eapply grows_trans; [done|]. by eapply Hk.
  - by intros [= <- <-].
  - by intros [= <- <-].
  - by intros [= <- <-].
Qed.

Lemma growing_mapAssign (l : loc) (name : string) (v : Value) :
  growing (mapAssign l name v).
Proof.
  intros h r h'. unfold mapAssign. destruct (maps h !! l).
  - intros [= <- <-]. split; simpl; [done|]. by rewrite length_insert.
  - intros [= <- <-]. apply grows_refl.
Qed.

Lemma growing_newMap : growing newMap.
Proof.
  intros h r h' [= <- <-]. split; simpl; [done|]. rewrite length_app. lia.
Qed.

Lemma growing_newDefn (n : fnNode) : growing (newDefn n).
Proof. intros h r h' [= <- <-]. split; simpl; lia. Qed.

Lemma growing_scope_update (sc : scope) (name : string) (v : Value) :
  growing (scope_update sc name v).
Proof.
  revert sc. fix IH 1. intros [[p|] l] h r h'; simpl.
  - destruct (mapIndex l name h); [apply growing_mapAssign | apply IH].
  - destruct (mapIndex l name h); [apply growing_mapAssign|].
    intros [= <- <-]. apply grows_refl.
Qed.

Create HintDb growing.
#[local] Hint Resolve growing_ret growing_fail growing_throw growing_lift
  growing_mapAssign growing_newMap growing_newDefn growing_scope_update
  : growing.

Section GrowingLoops.
Variable host : Natives.
Variable ev : astNode -> scope -> M Value.
Hypothesis growing_ev : forall node sc, growing (ev node sc).

Lemma growing_evalElems (nodes : list astNode) (sc : scope) :
  growing (evalElems ev nodes sc).
Proof.
  induction nodes as [|n nodes IH]; simpl; [apply growing_ret|].
  apply growing_bind; [done|]. intros el.
  apply growing_bind; [done|]. intros els. apply growing_ret.
Qed.

Lemma growing_entryKey (key : astNode) (sc : scope) :
  growing (entryKey host ev key sc).
Proof.
  destruct key; simpl; try apply growing_ret;
    (apply growing_bind; [done | intros k; apply growing_lift]).
Qed.

Lemma growing_evalEntries (entries : list (astNode * astNode)) (sc : scope)
    (obj : gmap string Value) :
  growing (evalEntries host ev entries sc obj).
Proof.
  revert obj. induction entries as [|[key val] entries IH]; intros obj;
    simpl; [apply growing_ret|].
  apply growing_bind; [apply growing_entryKey|]. intros ks.
  apply growing_bind; [done|]. intros v. apply IH.
Qed.

Lemma growing_bindArgs (fnScope : scope) (names : list string) (i : nat)
    (args : list Value) :
  growing (bindArgs fnScope names i args).
Proof.
  revert i. induction names as [|x names IH]; intros i; simpl;
    [apply growing_ret|].
  destruct (args !! i); [|apply growing_throw].
  apply growing_bind; [apply growing_mapAssign|]. intros _. apply IH.
Qed.

Lemma growing_callFn (defn : defnPtr) (fsc : scope) (args : list Value) :
  growing (callFn ev defn fsc args).
Proof.
  unfold callFn. case_match; [apply growing_throw|].
  apply growing_bind; [apply growing_newMap|]. intros l.
  apply growing_bind; [apply growing_bindArgs|]. intros _. done.
Qed.

Lemma growing_evalBranches (cond : Value)
    (branches : list (astNode * astNode)) (sc : scope) :
  growing (evalBranches host ev cond branches sc).
Proof.
  induction branches as [|[t b] branches IH]; simpl; [apply growing_ret|].
  apply growing_bind; [done|]. intros tv. by case_match.
Qed.

Lemma growing_evalBlock (exprs : list astNode) (blockScope : scope)
    (returnVal : Value) :
  growing (evalBlock ev exprs blockScope returnVal).
Proof.
  revert returnVal. induction exprs as [|e exprs IH]; intros returnVal;
    simpl; [apply growing_ret|].
  apply growing_bind; [done|]. intros v. apply IH.
Qed.

End GrowingLoops.

(** No evaluation gives back an address of the store. *)
Lemma growing_evalExpr (host : Natives) (fuel : nat) (node : astNode)
    (sc : scope) :
  growing (evalExpr host fuel node sc).
Proof.
  revert node sc. induction fuel as [|fuel IH]; intros node sc;
    [apply growing_lift|].
  destruct node; simpl; auto with growing.
  - case_match; apply growing_ret.
  - apply growing_bind; [by apply growing_evalElems|].
    intros els. apply growing_ret.
  - apply growing_bind; [by apply growing_evalEntries|].
    intros obj. apply growing_ret.
  - apply growing_bind; [apply growing_newDefn|]. intros defn.
    apply growing_bind; [|intros _; apply growing_ret].
    case_match; [apply growing_ret | apply growing_mapAssign].
  - intros h r h' [= <- <-]. apply grows_refl.
  - apply growing_bind; [done|]. intros assignedValue.
    destruct node1; try apply growing_throw.
    apply growing_bind; [|intros _; apply growing_ret].
    case_match; [apply growing_mapAssign | apply growing_scope_update].
  - apply growing_bind; [done|]. intros l.
    apply growing_bind; [done|]. intros r. apply growing_lift.
  - apply growing_bind; [done|]. intros maybeFn.
    apply growing_bind; [by apply growing_evalElems|]. intros argv.
    destruct maybeFn; try apply growing_fail.
    + by apply growing_callFn.
    + apply growing_lift.
  - apply growing_bind; [done|]. intros c.
    by apply growing_evalBranches.
  - apply growing_bind; [apply growing_newMap|]. intros l.
    by apply growing_evalBlock.
Qed.

(** ** Function values *)

Lemma fnNodeE_value (host : Natives) (fuel : nat) (n : fnNode) (sc : scope)
    (h : Store) (f : Value) (h' : Store) :
  evalExpr host fuel (fnNodeE n) sc h = (Ok f, h') ->
  f = FnValue (mkPtr (defns h) n) sc /\ defns h' = S (defns h).
Proof.
  destruct fuel as [|fuel]; [discriminate|]. simpl.
  unfold bind at 1. simpl. unfold bind.
  destruct (bool_decide (fn_name n = "")); simpl.
  - by intros [= <- <-].
  - destruct (scope_put _ _ _ _) as [[[]|e|p|] h1] eqn:E; try discriminate.
    intros [= <- <-]. split; [done|].
    unfold scope_put, mapAssign in E. simpl in E.
    destruct (maps h !! vars sc); by inversion E.
Qed.

(** C10. Equality of function values is identity of the definition they
    point to: a function value is equal to [u] exactly when [u] is a
    function value with the same [defn] pointer, so it is equal to itself
    and to no value of another variant. Two evaluations of one and the
    same function literal give function values that are not equal,
    whenever the store in which the second is evaluated has grown out of
    the store that the first left; and every operation of the evaluator,
    whole or part of a run, lets the store grow only, so that this is so
    for any two evaluations of the literal, in one run or in several. *)
Theorem FnValue_Eq_identity (host : Natives) :
  (forall defn sc u,
     Value_Eq host (FnValue defn sc) u = true <->
     exists wdefn wsc, u = FnValue wdefn wsc /\ addr defn = addr wdefn) /\
  (forall defn sc, Value_Eq host (FnValue defn sc) (FnValue defn sc) = true) /\
  (forall fuel1 fuel3 n sc1 sc2 h f1 h1 h2 f2 h3,
     evalExpr host fuel1 (fnNodeE n) sc1 h = (Ok f1, h1) ->
     grows h1 h2 ->
     evalExpr host fuel3 (fnNodeE n) sc2 h2 = (Ok f2, h3) ->
     Value_Eq host f1 f2 = false /\ Value_Eq host f2 f1 = false) /\
  ((forall h, grows h h) /\
   (forall h1 h2 h3, grows h1 h2 -> grows h2 h3 -> grows h1 h3) /\
   (forall fuel node sc, growing (evalExpr host fuel node sc)) /\
   (forall fuel nodes sc, growing (evalElems (evalExpr host fuel) nodes sc)) /\
   (forall fuel entries sc obj,
      growing (evalEntries host (evalExpr host fuel) entries sc obj)) /\
   (forall fuel c branches sc,
      growing (evalBranches host (evalExpr host fuel) c branches sc)) /\
   (forall fuel exprs blockScope returnVal,
      growing (evalBlock (evalExpr host fuel) exprs blockScope returnVal)) /\
   (forall fuel defn fsc args,
      growing (callFn (evalExpr host fuel) defn fsc args)) /\
   (forall fnScope names i args, growing (bindArgs fnScope names i args)) /\
   growing newMap /\
   (forall n, growing (newDefn n)) /\
   (forall sc name v, growing (scope_put sc name v)) /\
   (forall sc name v, growing (scope_update sc name v))).
Proof.
  split; [|split; [|split]].
  - apply FnValue_Eq_spec.
  - intros defn sc. simpl. unfold FnValue_Eq. apply Nat.eqb_refl.
  - intros * E1 [D2 _] E3.
    apply fnNodeE_value in E1 as [-> D1]. apply fnNodeE_value in E3 as [-> _].
    simpl. unfold FnValue_Eq. simpl.
    split; apply Nat.eqb_neq; lia.
  - pose proof (growing_evalExpr host) as Hev.
    split; [exact grows_refl|]. split; [exact grows_trans|].
    split; [exact Hev|].
    split; [intros fuel nodes sc; apply growing_evalElems, Hev|].
    split; [intros fuel entries sc obj; apply growing_evalEntries, Hev|].
    split; [intros fuel c branches sc; apply growing_evalBranches, Hev|].
    split; [intros fuel exprs blockScope returnVal;
            apply growing_evalBlock, Hev|].
    split; [intros fuel defn fsc args; apply growing_callFn, Hev|].
    split; [exact growing_bindArgs|].
    split; [exact growing_newMap|].
    split; [exact growing_newDefn|].
    split; [intros sc name v; apply growing_mapAssign|].
    exact growing_scope_update.
Qed.

(** Two evaluations of [fn() ?] with, in between, a block that ends and
    an assignment: [{a := fn() 1, a}] and [q := 5]. The program
    [fn mk() (fn() ?), if [mk()] { [mk()] -> :same, _ -> :other }] is
    [:other]. *)
Lemma FnValue_Eq_identity_witness :
  let n := mkFnNode "" [] nullNode in
  let sc := mkScope None 0 in
  let h := mkStore [∅] 0 in
  let h1 := mkStore [∅] 1 in
  let between1 :=
    blockNode [assignmentNode true (var "a")
                 (fnNodeE (mkFnNode "" [] (int 1))); var "a"] in
  let between2 := assignmentNode true (var "q") (int 5) in
  let ha := (evalExpr plainHost 3 between1 sc h1).2 in
  let h2 := (evalExpr plainHost 2 between2 sc ha).2 in
  evalExpr plainHost 1 (fnNodeE n) sc h = (Ok (FnValue (mkPtr 0 n) sc), h1) /\
  grows h1 h2 /\
  (evalExpr plainHost 1 (fnNodeE n) sc h2).1
    = Ok (FnValue (mkPtr 2 n) sc) /\
  Value_Eq plainHost (FnValue (mkPtr 0 n) sc) (FnValue (mkPtr 2 n) sc)
    = false /\
  (run plainHost 6
     [fnNodeE (mkFnNode "mk" [] (fnNodeE n));
      ifExprNode (listNode [fnCallNode (var "mk") []])
        [(listNode [fnCallNode (var "mk") []], atomNode "same");
         (emptyNode, atomNode "other")]]).1
  = Ok (AtomValue "other").
Proof.
  intros n sc h h1 between1 between2 ha h2.
  destruct (FnValue_Eq_identity plainHost)
    as (_ & _ & Hne & _ & Htrans & Hev & _).
  assert (grows h1 h2) as Hgrows.
  { apply (Htrans h1 ha h2).
    - apply (Hev 3%nat between1 sc h1 _ _ (surjective_pairing _)).
    - apply (Hev 2%nat between2 sc ha _ _ (surjective_pairing _)). }
  split; [reflexivity|]. split; [exact Hgrows|]. split; [reflexivity|].
  split; [|reflexivity].
  exact (proj1 (Hne 1%nat 1%nat n sc sc h (FnValue (mkPtr 0 n) sc) h1 h2
                  (FnValue (mkPtr 2 n) sc) _ eq_refl Hgrows
                  (surjective_pairing _))).
Defined.

(** ** Assignment to a name *)

Section ScopeFacts.

Lemma chain_parent (sc p : scope) :
  parent sc = Some p -> chain sc = vars sc :: chain p.
Proof. destruct sc as [q l]. simpl. by intros ->. Qed.

Lemma chain_root (sc : scope) :
  parent sc = None -> chain sc = [vars sc].
Proof. destruct sc as [q l]. simpl. by intros ->. Qed.

Lemma chain_not_nil (sc : scope) : chain sc <> [].
Proof. by destruct sc. Qed.

Lemma scope_update_unfold (sc : scope) (name : string) (v : Value)
    (h : Store) :
  scope_update sc name v h =
    match mapIndex (vars sc) name h with
    | Some _ => mapAssign (vars sc) name v h
    | None =>
        match parent sc with
        | Some p => scope_update p name v h
        | None => (Err (undefined name), h)
        end
    end.
Proof. by destruct sc. Qed.

(** [update] writes the first map of the chain that has the name. *)
Lemma scope_update_nearest (sc : scope) (name : string) (v : Value)
    (h : Store) (pre post : list loc) (l : loc) (m : gmap string Value)
    (old : Value) :
  chain sc = (pre ++ l :: post)%list ->
  (forall l', l' ∈ pre -> mapIndex l' name h = None) ->
  maps h !! l = Some m -> m !! name = Some old ->
  scope_update sc name v h
  = (Ok tt, mkStore (<[l := <[name := v]> m]> (maps h)) (defns h)).
Proof.
  revert sc. induction pre as [|l0 pre IH]; intros sc Hch Hpre Hm Hold;
    rewrite scope_update_unfold.
  - assert (vars sc = l) as -> by (destruct sc as [[]]; by inversion Hch).
    unfold mapIndex, mapAssign. by rewrite Hm, Hold.
  - assert (vars sc = l0) as -> by (destruct sc as [[]]; by inversion Hch).
    rewrite Hpre by set_solver.
    destruct (parent sc) as [p|] eqn:Hp.
    + apply IH; [|set_solver|done..].
      rewrite (chain_parent _ _ Hp) in Hch. by inversion Hch.
    + rewrite (chain_root _ Hp) in Hch. inversion Hch as [[H1 H2]].
      by destruct pre.
Qed.

(** When no map of the chain has the name, [update] fails and the store
    is as before. *)
Lemma scope_update_undefined (sc : scope) (name : string) (v : Value)
    (h : Store) :
  (forall l, l ∈ chain sc -> mapIndex l name h = None) ->
  scope_update sc name v h = (Err (undefined name), h).
Proof.
  remember (chain sc) as ch eqn:Hch. revert sc Hch.
  induction ch as [|l0 ch IH]; intros sc Hch Hnone.
  - by destruct (chain_not_nil sc).
  - rewrite scope_update_unfold.
    assert (vars sc = l0) as -> by (destruct sc as [[]]; by inversion Hch).
    rewrite Hnone by set_solver.
    destruct (parent sc) as [p|] eqn:Hp; [|done].
    apply IH; [|set_solver].
    rewrite (chain_parent _ _ Hp) in Hch. by inversion Hch.
Qed.

Lemma scope_put_local (sc : scope) (name : string) (v : Value) (h : Store)
    (m : gmap string Value) :
  maps h !! vars sc = Some m ->
  scope_put sc name v h
  = (Ok tt, mkStore (<[vars sc := <[name := v]> m]> (maps h)) (defns h)).
Proof. intros Hm. unfold scope_put, mapAssign. by rewrite Hm. Qed.

Lemma scope_put_other (sc : scope) (name : string) (v : Value) (h : Store)
    (r : Res unit) (h' : Store) (l : loc) :
  scope_put sc name v h = (r, h') -> l <> vars sc ->
  maps h' !! l = maps h !! l.
Proof.
  unfold scope_put, mapAssign. destruct (maps h !! vars sc).
  - intros [= <- <-] Hl. simpl. by rewrite list_lookup_insert_ne.
  - by intros [= <- <-].
Qed.

End ScopeFacts.

Lemma assignment_to_name (host : Natives) (fuel : nat) (isLocal : bool)
    (name : string) (rhs : astNode) (sc : scope) (h : Store) (v : Value)
    (h1 : Store) :
  evalExpr host fuel rhs sc h = (Ok v, h1) ->
  evalExpr host (S fuel) (assignmentNode isLocal (identifierNode name) rhs)
    sc h
  = bind (if isLocal then scope_put sc name v else scope_update sc name v)
         (fun _ => ret v) h1.
Proof. intros E. simpl. by rewrite (bind_Ok _ _ _ _ _ E). Qed.

(** C5. Nonlocal assignment ([update]) overwrites the name in the first
    map of the scope chain, from the innermost scope outwards, that has
    it, and leaves every other map as it was; when no scope up to the root
    has the name it fails with the undefined-variable error and the store
    is unchanged. Local assignment ([put]) writes the map of the innermost
    scope only: the maps of the ancestors are as before. An assignment
    node with a name on the left evaluates the right-hand side, does the
    one or the other, and returns the assigned value. *)
Theorem assignment_scoping (host : Natives) :
  (forall sc name v h pre l post m old,
     chain sc = (pre ++ l :: post)%list ->
     (forall l', l' ∈ pre -> mapIndex l' name h = None) ->
     maps h !! l = Some m -> m !! name = Some old ->
     scope_update sc name v h
     = (Ok tt, mkStore (<[l := <[name := v]> m]> (maps h)) (defns h))) /\
  (forall sc name v h,
     (forall l, l ∈ chain sc -> mapIndex l name h = None) ->
     scope_update sc name v h = (Err (undefined name), h)) /\
  (forall sc name v h m,
     maps h !! vars sc = Some m ->
     scope_put sc name v h
     = (Ok tt, mkStore (<[vars sc := <[name := v]> m]> (maps h)) (defns h))) /\
  (forall sc p name v h r h' l,
     parent sc = Some p -> l ∈ chain p -> NoDup (chain sc) ->
     scope_put sc name v h = (r, h') ->
     maps h' !! l = maps h !! l) /\
  (forall fuel isLocal name rhs sc h v h1,
     evalExpr host fuel rhs sc h = (Ok v, h1) ->
     evalExpr host (S fuel)
       (assignmentNode isLocal (identifierNode name) rhs) sc h
     = bind (if isLocal then scope_put sc name v
             else scope_update sc name v) (fun _ => ret v) h1).
Proof.
  split; [|split; [|split; [|split]]].
  - intros *. apply scope_update_nearest.
  - intros *. apply scope_update_undefined.
  - intros *. apply scope_put_local.
  - intros * Hp Hl Hnd E. eapply scope_put_other; [done|].
    rewrite (chain_parent _ _ Hp) in Hnd. apply NoDup_cons in Hnd as [Hni _].
    by intros ->.
  - intros *. apply assignment_to_name.
Qed.

(** The README's example: [n := 10] outside, then [n <- 30] or [n := 30]
    in a block. *)
Lemma assignment_scoping_witness :
  let outer := mkScope None 0 in
  let inner := mkScope (Some outer) 1 in
  let h := mkStore [{["n" := IntValue 10]}; ∅] 0 in
  (chain inner = ([1%nat] ++ 0%nat :: [])%list /\
   (forall l', l' ∈ [1%nat] -> mapIndex l' "n" h = None) /\
   maps h !! 0%nat = Some {["n" := IntValue 10]} /\
   ({["n" := IntValue 10]} : gmap string Value) !! "n"
     = Some (IntValue 10) /\
   scope_update inner "n" (IntValue 30) h
   = (Ok tt, mkStore [<["n" := IntValue 30]> {["n" := IntValue 10]}; ∅] 0))
  /\
  ((forall l, l ∈ chain inner -> mapIndex l "x" h = None) /\
   scope_update inner "x" (IntValue 30) h = (Err (undefined "x"), h))
  /\
  (maps h !! vars inner = Some ∅ /\
   scope_put inner "n" (IntValue 30) h
   = (Ok tt, mkStore [{["n" := IntValue 10]}; <["n" := IntValue 30]> ∅] 0))
  /\
  (parent inner = Some outer /\ 0%nat ∈ chain outer /\ NoDup (chain inner) /\
   maps (scope_put inner "n" (IntValue 30) h).2 !! 0%nat = maps h !! 0%nat)
  /\
  (evalExpr plainHost 1 (int 30) inner h = (Ok (IntValue 30), h) /\
   evalExpr plainHost 2 (assignmentNode false (var "n") (int 30)) inner h
   = (Ok (IntValue 30),
      mkStore [<["n" := IntValue 30]> {["n" := IntValue 10]}; ∅] 0)).
Proof.
  intros outer inner h.
  destruct (assignment_scoping plainHost) as (U1 & U2 & P1 & P2 & A).
  assert (forall l', l' ∈ [1%nat] -> mapIndex l' "n" h = None) as Hpre.
  { intros l' ->%list_elem_of_singleton. reflexivity. }
  assert (forall l, l ∈ chain inner -> mapIndex l "x" h = None) as Hnone.
  { intros l Hl. simpl in Hl.
    apply elem_of_cons in Hl as [->|Hl]; [reflexivity|].
    apply list_elem_of_singleton in Hl as ->. reflexivity. }
  assert (NoDup (chain inner)) as Hnd.
  { simpl. apply NoDup_cons. split; [|apply NoDup_singleton].
    intros Hin%list_elem_of_singleton. discriminate. }
  split; [|split; [|split; [|split]]].
  - split; [reflexivity|]. split; [exact Hpre|].
    split; [reflexivity|]. split; [reflexivity|].
    exact (U1 inner "n" (IntValue 30) h [1%nat] 0%nat [] _ (IntValue 10)
             eq_refl Hpre eq_refl eq_refl).
  - split; [exact Hnone|]. exact (U2 inner "x" (IntValue 30) h Hnone).
  - split; [reflexivity|].
    exact (P1 inner "n" (IntValue 30) h ∅ eq_refl).
  - split; [reflexivity|]. split; [set_solver|]. split; [exact Hnd|].
    eapply (P2 inner outer "n" (IntValue 30) h); [reflexivity|set_solver|
      exact Hnd|]. apply surjective_pairing.
  - split; [reflexivity|].
    exact (A 1%nat false "n" (int 30) inner h (IntValue 30) h eq_refl).
Defined.

(** ** The match expression *)

Section Branches.
Variable host : Natives.
Variable ev : astNode -> scope -> M Value.

(** Branches whose patterns differ from the subject only leave the store
    that the evaluation of their patterns leaves. *)
Lemma evalBranches_pass (cond : Value) (pre rest : list (astNode * astNode))
    (sc : scope) (h h1 : Store) :
  passBranches host ev cond pre sc h = Some h1 ->
  evalBranches host ev cond (pre ++ rest) sc h
  = evalBranches host ev cond rest sc h1.
Proof.
  revert h. induction pre as [|[t b] pre IH]; intros h; simpl.
  - by intros [= ->].
  - unfold bind. destruct (ev t sc h) as [[tv|e|p|] h'] eqn:E; try done.
    destruct (Value_Eq host cond tv); [done|]. apply IH.
Qed.

Lemma evalBranches_match (cond : Value) (target body : astNode)
    (post : list (astNode * astNode)) (sc : scope) (h : Store) (t : Value)
    (h' : Store) :
  ev target sc h = (Ok t, h') -> Value_Eq host cond t = true ->
  evalBranches host ev cond ((target, body) :: post) sc h = ev body sc h'.
Proof. intros E Heq. simpl. rewrite (bind_Ok _ _ _ _ _ E). by rewrite Heq. Qed.

End Branches.

(** C4. In a match expression the subject is evaluated once, first. The
    patterns are then evaluated in order, each in the store left by the one
    before; at the first pattern that the subject is equal to the body of
    that branch is evaluated and its outcome is the outcome of the whole
    expression, whatever the later branches are (the bodies of the
    branches before and the patterns and bodies of the branches after are
    not evaluated); when the subject is equal to no pattern the value is
    null. *)
Theorem ifExpr_first_match (host : Natives) (fuel : nat) (cond : astNode)
    (sc : scope) (h : Store) (c : Value) (h0 : Store) :
  evalExpr host fuel cond sc h = (Ok c, h0) ->
  (forall pre target body post h1 t h2,
     passBranches host (evalExpr host fuel) c pre sc h0 = Some h1 ->
     evalExpr host fuel target sc h1 = (Ok t, h2) ->
     Value_Eq host c t = true ->
     evalExpr host (S fuel)
       (ifExprNode cond (pre ++ (target, body) :: post)) sc h
     = evalExpr host fuel body sc h2) /\
  (forall branches h1,
     passBranches host (evalExpr host fuel) c branches sc h0 = Some h1 ->
     evalExpr host (S fuel) (ifExprNode cond branches) sc h = (Ok null, h1)).
Proof.
  intros Ec. split.
  - intros * Hpre Et Heq. simpl. rewrite (bind_Ok _ _ _ _ _ Ec).
    rewrite (evalBranches_pass _ _ _ _ _ _ _ _ Hpre).
    by eapply evalBranches_match.
  - intros * Hall. simpl. rewrite (bind_Ok _ _ _ _ _ Ec).
    rewrite <- (app_nil_r branches).
    by rewrite (evalBranches_pass _ _ _ _ _ _ _ _ Hall).
Qed.

(** The README's [fizzbuzz] match at [[0, 5]]; the third branch, which
    is not reached, has a body that would panic. *)
Lemma ifExpr_first_match_witness :
  let sc := mkScope None 0 in
  let h := mkStore [∅] 0 in
  let subject := listNode [int 0; int 5] in
  let c := ListValue [IntValue 0; IntValue 5] in
  let pre := [(listNode [int 0; int 0], atomNode "FizzBuzz")] in
  let post := [(listNode [emptyNode; int 0], binaryNode "+" (int 1) (int 2));
               (emptyNode, atomNode "other")] in
  evalExpr plainHost 2 subject sc h = (Ok c, h) /\
  passBranches plainHost (evalExpr plainHost 2) c pre sc h = Some h /\
  evalExpr plainHost 2 (listNode [int 0; emptyNode]) sc h
    = (Ok (ListValue [IntValue 0; EmptyValue]), h) /\
  Value_Eq plainHost c (ListValue [IntValue 0; EmptyValue]) = true /\
  evalExpr plainHost 3
    (ifExprNode subject
       (pre ++ (listNode [int 0; emptyNode], atomNode "Fizz") :: post)) sc h
  = (Ok (AtomValue "Fizz"), h) /\
  evalExpr plainHost 3 (ifExprNode subject pre) sc h = (Ok null, h).
Proof.
  intros sc h subject c pre post.
  destruct (ifExpr_first_match plainHost 2 subject sc h c h eq_refl)
    as [Hfirst Hnone].
  split; [reflexivity|]. split; [reflexivity|]. split; [reflexivity|].
  split; [reflexivity|]. split.
  - exact (Hfirst pre (listNode [int 0; emptyNode]) (atomNode "Fizz") post
             h (ListValue [IntValue 0; EmptyValue]) h
             eq_refl eq_refl eq_refl).
  - exact (Hnone pre h eq_refl).
Defined.

(** ** Object literals *)

Section Entries.
Variable host : Natives.
Variable ev : astNode -> scope -> M Value.

Lemma evalEntries_app (es es' : list (astNode * astNode)) (sc : scope)
    (obj : gmap string Value) (h : Store) :
  evalEntries host ev (es ++ es') sc obj h
  = bind (evalEntries host ev es sc obj)
         (fun o => evalEntries host ev es' sc o) h.
Proof.
  revert obj h. induction es as [|[key val] es IH]; intros obj h; [done|].
  simpl. unfold bind.
  destruct (entryKey host ev key sc h) as [[ks|e|p|] h1]; try done.
  destruct (ev val sc h1) as [[v|e|p|] h2]; done.
Qed.

Lemma entryKey_identifier (payload : string) (sc : scope) (h : Store) :
  entryKey host ev (identifierNode payload) sc h = (Ok payload, h).
Proof. reflexivity. Qed.

Lemma entryKey_evaluated (key : astNode) (sc : scope) (h : Store)
    (k : Value) (h' : Store) :
  (forall payload, key <> identifierNode payload) ->
  ev key sc h = (Ok k, h') ->
  entryKey host ev key sc h = (keyString host k, h').
Proof.
  intros Hni E. destruct key; simpl; try by rewrite (bind_Ok _ _ _ _ _ E).
  by destruct (Hni payload).
Qed.

End Entries.

Lemma objectNode_inv (host : Natives) (fuel : nat)
    (es : list (astNode * astNode)) (sc : scope) (h : Store)
    (o : gmap string Value) (h1 : Store) :
  evalExpr host (S fuel) (objectNode es) sc h = (Ok (ObjectValue o), h1) ->
  evalEntries host (evalExpr host fuel) es sc ∅ h = (Ok o, h1).
Proof.
  simpl. intros (o' & h' & E & [= <- <-])%bind_inv_Ok. done.
Qed.

(** C6. In an object literal a key that is a bare identifier is taken as
    it is written, with no evaluation (whatever the evaluator of the
    sub-expressions and the store). Any other key is evaluated, and its
    value gives the key when it is a String (its bytes), an Int or a Float
    (its decimal form); any other value is the invalid-key error, which
    ends the evaluation of the literal before the value of the entry. The
    entries are evaluated from left to right, each in the store left by
    the one before, and the value of an entry replaces the value that an
    earlier entry stored under the same key. *)
Theorem object_literal (host : Natives) :
  (forall ev payload sc h,
     entryKey host ev (identifierNode payload) sc h = (Ok payload, h)) /\
  (forall ev key sc h k h',
     (forall payload, key <> identifierNode payload) ->
     ev key sc h = (Ok k, h') ->
     entryKey host ev key sc h = (keyString host k, h')) /\
  ((forall s, keyString host (StringValue s) = Ok s) /\
   (forall z, keyString host (IntValue z) = Ok (pretty z)) /\
   (forall f, keyString host (FloatValue f) = Ok (FormatFloat host f)) /\
   (forall k,
      (forall s, k <> StringValue s) -> (forall z, k <> IntValue z) ->
      (forall f, k <> FloatValue f) ->
      keyString host k
      = Err (mkRuntimeError
               ("Expected a string or number as object key, got "
                  +:+ Value_String host k)))) /\
  (forall fuel es key val sc h o h1 ks h2 v h3,
     evalExpr host (S fuel) (objectNode es) sc h = (Ok (ObjectValue o), h1) ->
     entryKey host (evalExpr host fuel) key sc h1 = (Ok ks, h2) ->
     evalExpr host fuel val sc h2 = (Ok v, h3) ->
     evalExpr host (S fuel) (objectNode (es ++ [(key, val)])) sc h
     = (Ok (ObjectValue (<[ks := v]> o)), h3) /\
     (<[ks := v]> o) !! ks = Some v /\
     (forall ks', ks' <> ks -> (<[ks := v]> o) !! ks' = o !! ks')) /\
  (forall fuel es key val rest sc h o h1 k h2 e,
     evalExpr host (S fuel) (objectNode es) sc h = (Ok (ObjectValue o), h1) ->
     (forall payload, key <> identifierNode payload) ->
     evalExpr host fuel key sc h1 = (Ok k, h2) ->
     keyString host k = Err e ->
     evalExpr host (S fuel) (objectNode (es ++ (key, val) :: rest)) sc h
     = (Err e, h2)).
Proof.
  split; [|split; [|split; [|split]]].
  - intros *. apply entryKey_identifier.
  - intros *. apply entryKey_evaluated.
  - repeat split. intros k Hs Hz Hf. destruct k; try reflexivity.
    + by destruct (Hs s).
    + by destruct (Hz z).
    + by destruct (Hf f).
  - intros * Eo Ek Ev. apply objectNode_inv in Eo.
    split; [|split].
    + simpl. unfold bind at 1. rewrite evalEntries_app.
      rewrite (bind_Ok _ _ _ _ _ Eo). simpl.
      rewrite (bind_Ok _ _ _ _ _ Ek). by rewrite (bind_Ok _ _ _ _ _ Ev).
    + apply lookup_insert_eq.
    + intros ks' Hne. by apply lookup_insert_ne.
  - intros * Eo Hni Ek Hbad. apply objectNode_inv in Eo.
    simpl. unfold bind at 1. rewrite evalEntries_app.
    rewrite (bind_Ok _ _ _ _ _ Eo). simpl. unfold bind at 1.
    by rewrite (entryKey_evaluated _ _ _ _ _ _ _ Hni Ek), Hbad.
Qed.

(** [{a: 1, 'a': 2}] is the object with 2 under [a]; [{a: 1, ?: 2}] is
    an error. *)
Lemma object_literal_witness :
  let sc := mkScope None 0 in
  let h := mkStore [∅] 0 in
  let es := [(var "a", int 1)] in
  let o : gmap string Value := <["a" := IntValue 1]> ∅ in
  (str "a" <> var "a" /\
   evalExpr plainHost 1 (str "a") sc h = (Ok (StringValue "a"), h) /\
   entryKey plainHost (evalExpr plainHost 1) (str "a") sc h
   = (keyString plainHost (StringValue "a"), h)) /\
  (evalExpr plainHost 2 (objectNode es) sc h = (Ok (ObjectValue o), h) /\
   entryKey plainHost (evalExpr plainHost 1) (str "a") sc h = (Ok "a", h) /\
   evalExpr plainHost 1 (int 2) sc h = (Ok (IntValue 2), h) /\
   evalExpr plainHost 2 (objectNode (es ++ [(str "a", int 2)])) sc h
   = (Ok (ObjectValue (<["a" := IntValue 2]> o)), h) /\
   (<["a" := IntValue 2]> o) !! "a" = Some (IntValue 2)) /\
  (evalExpr plainHost 1 nullNode sc h = (Ok null, h) /\
   keyString plainHost null
   = Err (mkRuntimeError
            "Expected a string or number as object key, got ?") /\
   evalExpr plainHost 2
     (objectNode (es ++ (nullNode, int 2) :: [(var "b", int 3)])) sc h
   = (Err (mkRuntimeError
             "Expected a string or number as object key, got ?"), h)).
Proof.
  intros sc h es o.
  destruct (object_literal plainHost) as (_ & K & _ & S & F).
  split; [|split].
  - split; [discriminate|]. split; [reflexivity|].
    apply (K (evalExpr plainHost 1) (str "a") sc h (StringValue "a") h);
      [discriminate | reflexivity].
  - split; [reflexivity|]. split; [reflexivity|]. split; [reflexivity|].
    destruct (S 1%nat es (str "a") (int 2) sc h o h "a" h (IntValue 2) h
                eq_refl eq_refl eq_refl) as (E & L & _).
    split; [exact E | exact L].
  - split; [reflexivity|]. split; [reflexivity|].
    apply (F 1%nat es nullNode (int 2) [(var "b", int 3)] sc h o h null h);
      [reflexivity | discriminate | reflexivity | reflexivity].
Defined.

(** ** Keys written and keys read *)

Lemma length_append (s t : string) :
  String.length (s +:+ t) = (String.length s + String.length t)%nat.
Proof. induction s as [|a s IH]; simpl; [done|]. by rewrite IH. Qed.

Lemma length_quoted (s : string) :
  String.length (quoted s) = S (S (String.length s)).
Proof.
  unfold quoted. rewrite !length_append. simpl. lia.
Qed.

Lemma quoted_ne (s : string) : quoted s <> s.
Proof.
  intros E. apply (f_equal String.length) in E. rewrite length_quoted in E.
  lia.
Qed.

Section Keys.
Variable host : Natives.

Lemma entryKey_literal (fuel : nat) (key : astNode) (sc : scope)
    (h : Store) (ks : string) (h1 : Store) (k : string) :
  entryKey host (evalExpr host fuel) key sc h = (Ok ks, h1) ->
  literalKey host key = Some k -> ks = k.
Proof.
  destruct key; try discriminate; simpl.
  - destruct fuel; [discriminate|]. simpl. by intros [= <- _] [= <-].
  - destruct fuel; [discriminate|]. simpl.
    destruct isInteger; simpl; by intros [= <- _] [= <-].
  - by intros [= <- _] [= <-].
Qed.

(** Every entry with a literal key leaves a value under that key. *)
Lemma evalEntries_stored (fuel : nat) (es : list (astNode * astNode))
    (sc : scope) (obj : gmap string Value) (h : Store)
    (o : gmap string Value) (h' : Store) :
  evalEntries host (evalExpr host fuel) es sc obj h = (Ok o, h') ->
  (forall k, is_Some (obj !! k) -> is_Some (o !! k)) /\
  (forall key val k,
     (key, val) ∈ es -> literalKey host key = Some k -> is_Some (o !! k)).
Proof.
  revert obj h. induction es as [|[key0 val0] es IH]; intros obj h; simpl.
  - intros [= <- <-]. split; [done|]. intros * Hin. by apply elem_of_nil in Hin.
  - intros (ks0 & h1 & Ek & (v0 & h2 & Ev & Er)%bind_inv_Ok)%bind_inv_Ok.
    destruct (IH _ _ Er) as [Hkeep Hrest]. split.
    + intros k Hk. apply Hkeep.
      destruct (decide (ks0 = k)) as [->|Hne].
      * rewrite lookup_insert_eq. eauto.
      * by rewrite lookup_insert_ne.
    + intros key val k [[= -> ->]|Hin]%elem_of_cons Hlit.
      * apply Hkeep. rewrite (entryKey_literal _ _ _ _ _ _ _ Ek Hlit).
        rewrite lookup_insert_eq. eauto.
      * by eapply Hrest.
Qed.

Lemma read_string_key (o : gmap string Value) (s : string) :
  propertyAccess host (ObjectValue o) (StringValue s)
  = Ok (default null (o !! quoted s)).
Proof. simpl. unfold StringValue_String. fold (quoted s). by destruct (o !! _). Qed.

Lemma single_entry_object (fuel : nat) (key val : astNode) (sc : scope)
    (h : Store) (o : gmap string Value) (h' : Store) (k : string) :
  evalExpr host fuel (objectNode [(key, val)]) sc h
    = (Ok (ObjectValue o), h') ->
  literalKey host key = Some k ->
  exists v, o = {[k := v]}.
Proof.
  destruct fuel as [|fuel]; [discriminate|]. intros E%objectNode_inv Hlit.
  simpl in E.
  apply bind_inv_Ok in E as (ks & h1 & Ek & E).
  apply bind_inv_Ok in E as (v & h2 & Ev & [= <- <-]).
  rewrite (entryKey_literal _ _ _ _ _ _ _ Ek Hlit). by exists v.
Qed.

End Keys.

(** C9, as it is stated, fails: in [{'a': 1, <'a'>: 2}], where the
    second key is the string of three bytes ['a'] with its quotes, the
    read at the key value [a] finds the second entry. *)
Lemma string_key_read_finds_quoted_entry :
  ~ string_key_reads_null plainHost.
Proof.
  intros H.
  specialize (H 3%nat [(str "a", int 1); (str "'a'", int 2)] "a" (int 1)
                (mkScope None 0) (mkStore [∅] 0)
                (<["'a'" := IntValue 2]> (<["a" := IntValue 1]> ∅))
                (mkStore [∅] 0)).
  assert (propertyAccess plainHost
            (ObjectValue (<["'a'" := IntValue 2]> (<["a" := IntValue 1]> ∅)))
            (StringValue "a") = Ok (IntValue 2)) as E by reflexivity.
  rewrite H in E; [discriminate | apply list_elem_of_here | reflexivity].
Qed.

Section Written.
Variable host : Natives.
Variable ev : astNode -> scope -> M Value.

Lemma evalEntries_lookup (es : list (astNode * astNode)) (sc : scope)
    (obj : gmap string Value) (h : Store) (o : gmap string Value)
    (h' : Store) (k : string) :
  evalEntries host ev es sc obj h = (Ok o, h') ->
  o !! k = match lastWritten k (written host ev es sc h) with
           | Some v => Some v
           | None => obj !! k
           end.
Proof.
  revert obj h. induction es as [|[key val] es IH]; intros obj h; simpl.
  - by intros [= <- _].
  - intros E. apply bind_inv_Ok in E as (ks & h1 & Ek & E).
    apply bind_inv_Ok in E as (v & h2 & Ev & E).
    rewrite Ek, Ev. simpl. rewrite (IH _ _ E).
    destruct (lastWritten k _); [done|].
    case_bool_decide as Hk.
    + subst. apply lookup_insert_eq.
    + by apply lookup_insert_ne.
Qed.

Lemma written_length (es : list (astNode * astNode)) (sc : scope)
    (obj : gmap string Value) (h : Store) (o : gmap string Value)
    (h' : Store) :
  evalEntries host ev es sc obj h = (Ok o, h') ->
  length (written host ev es sc h) = length es.
Proof.
  revert obj h. induction es as [|[key val] es IH]; intros obj h; simpl;
    [done|].
  intros E. apply bind_inv_Ok in E as (ks & h1 & Ek & E).
  apply bind_inv_Ok in E as (v & h2 & Ev & E).
  rewrite Ek, Ev. simpl. f_equal. by eapply IH.
Qed.

End Written.

Lemma lastWritten_none (k : string) (w : list (string * Value)) :
  (forall kv, kv ∈ w -> kv.1 <> k) -> lastWritten k w = None.
Proof.
  induction w as [|[k' v] w IH]; intros Hw; [done|]. simpl.
  rewrite IH by (intros kv Hkv; by apply Hw, list_elem_of_further).
  rewrite bool_decide_eq_false_2; [done|].
  apply (Hw (k', v)), list_elem_of_here.
Qed.

Lemma lastWritten_last (k : string) (w1 w2 : list (string * Value))
    (v : Value) :
  (forall kv, kv ∈ w2 -> kv.1 <> k) ->
  lastWritten k (w1 ++ (k, v) :: w2) = Some v.
Proof.
  intros Hw2. induction w1 as [|[k' v'] w1 IH]; simpl.
  - rewrite (lastWritten_none _ _ Hw2). by rewrite bool_decide_eq_true_2.
  - by rewrite IH.
Qed.

(** The pairs with another key play no part. *)
Lemma lastWritten_filter (k s : string) (w : list (string * Value)) :
  k <> s ->
  lastWritten k (filter (fun kv => kv.1 <> s) w) = lastWritten k w.
Proof.
  intros Hks. induction w as [|[k' v] w IH]; [done|].
  destruct (decide (k' = s)) as [->|Hne].
  - rewrite filter_cons_False by (simpl; tauto). simpl. rewrite IH.
    rewrite bool_decide_eq_false_2 by congruence.
    by destruct (lastWritten k w).
  - rewrite filter_cons_True by done. simpl. by rewrite IH.
Qed.

(** C9, amended. A literal stores an entry whose key evaluates to the
    String [s] under the bytes of [s]; a read with the key value [s] looks
    up [s] between single quotes, which is another string. The object
    holds under each key the value of the last entry stored under it, so
    the entries stored for [s] play no part in that read: it returns the value of the
    last entry that the literal stored under the quoted form, and null
    when the literal stored no entry under it, as in every literal that
    has the one entry for [s] only. Int and Float keys are written and
    read in one and the same decimal form: a read returns the value of the
    last entry stored under that form. *)
Theorem object_key_forms (host : Natives) :
  (forall s,
     keyString host (StringValue s) = Ok s /\
     Value_String host (StringValue s) = quoted s /\ quoted s <> s) /\
  (forall z,
     keyString host (IntValue z) = Ok (Value_String host (IntValue z))) /\
  (forall f,
     keyString host (FloatValue f) = Ok (Value_String host (FloatValue f))) /\
  (forall ev key val rest sc h k h1 ks v h2,
     (forall payload, key <> identifierNode payload) ->
     ev key sc h = (Ok k, h1) -> keyString host k = Ok ks ->
     ev val sc h1 = (Ok v, h2) ->
     written host ev ((key, val) :: rest) sc h
     = (ks, v) :: written host ev rest sc h2) /\
  (forall fuel entries sc h o h',
     evalExpr host (S fuel) (objectNode entries) sc h
       = (Ok (ObjectValue o), h') ->
     let w := written host (evalExpr host fuel) entries sc h in
     length w = length entries /\
     (forall k, o !! k = lastWritten k w) /\
     (forall r,
        propertyAccess host (ObjectValue o) r
        = Ok (default null (lastWritten (Value_String host r) w))) /\
     (forall s,
        (forall kv, kv ∈ w -> kv.1 <> quoted s) ->
        propertyAccess host (ObjectValue o) (StringValue s) = Ok null) /\
     (forall s,
        propertyAccess host (ObjectValue o) (StringValue s)
        = Ok (default null
                (lastWritten (quoted s) (filter (fun kv => kv.1 <> s) w)))) /\
     (forall r w1 v w2,
        w = (w1 ++ (Value_String host r, v) :: w2)%list ->
        (forall kv, kv ∈ w2 -> kv.1 <> Value_String host r) ->
        propertyAccess host (ObjectValue o) r = Ok v)) /\
  (forall fuel key val sc h o h' s h1,
     evalExpr host (S fuel) (objectNode [(key, val)]) sc h
       = (Ok (ObjectValue o), h') ->
     (forall payload, key <> identifierNode payload) ->
     evalExpr host fuel key sc h = (Ok (StringValue s), h1) ->
     propertyAccess host (ObjectValue o) (StringValue s) = Ok null).
Proof.
  assert (forall fuel entries sc h o h',
            evalExpr host (S fuel) (objectNode entries) sc h
              = (Ok (ObjectValue o), h') ->
            forall r,
              propertyAccess host (ObjectValue o) r
              = Ok (default null
                      (lastWritten (Value_String host r)
                         (written host (evalExpr host fuel) entries sc h))))
    as Hread.
  { intros * E%objectNode_inv r. unfold propertyAccess.
    rewrite (evalEntries_lookup _ _ _ _ _ _ _ _ (Value_String host r) E).
    rewrite lookup_empty. by destruct (lastWritten _ _). }
  split; [|split; [|split; [|split; [|split]]]].
  - intros s. repeat split. apply quoted_ne.
  - done.
  - done.
  - intros * Hni Ek Hks Ev. simpl.
    by rewrite (entryKey_evaluated _ _ _ _ _ _ _ Hni Ek), Hks, Ev.
  - intros * E w. split; [|split; [|split; [|split; [|split]]]].
    + apply objectNode_inv in E. by eapply written_length.
    + intros k. apply objectNode_inv in E.
      rewrite (evalEntries_lookup _ _ _ _ _ _ _ _ k E), lookup_empty.
      fold w. by destruct (lastWritten k w).
    + exact (Hread _ _ _ _ _ _ E).
    + intros s Hnone. rewrite (Hread _ _ _ _ _ _ E).
      change (Value_String host (StringValue s)) with (quoted s).
      fold w. by rewrite (lastWritten_none _ _ Hnone).
    + intros s. rewrite (Hread _ _ _ _ _ _ E).
      change (Value_String host (StringValue s)) with (quoted s).
      fold w. rewrite lastWritten_filter; [done | apply quoted_ne].
    + intros r w1 v w2 Hw Hw2. rewrite (Hread _ _ _ _ _ _ E). fold w.
      by rewrite Hw, (lastWritten_last _ _ _ _ Hw2).
  - intros * E Hni Ek. rewrite (Hread _ _ _ _ _ _ E).
    change (Value_String host (StringValue s)) with (quoted s).
    apply objectNode_inv in E. simpl in E.
    apply bind_inv_Ok in E as (ks & h2 & Eks & E).
    apply bind_inv_Ok in E as (v & h3 & Ev & _).
    simpl. rewrite Eks, Ev. simpl.
    rewrite (entryKey_evaluated _ _ _ _ _ _ _ Hni Ek) in Eks.
    injection Eks as <- _.
    rewrite bool_decide_eq_false_2; [done|].
    intros Hq. by apply (quoted_ne s).
Qed.

(** [{'a': 1, <'a'>: 2, 5: 3, '5': 4}], where the second key is the
    string ['a'] with its quotes: the read at the string [a] is 2 and the
    read at the integer 5 is 4; [{'a': 1}] read at [a] is null. *)
Lemma object_key_forms_witness :
  let sc := mkScope None 0 in
  let h := mkStore [∅] 0 in
  let es := [(str "a", int 1); (str "'a'", int 2); (int 5, int 3);
             (str "5", int 4)] in
  let w := [("a", IntValue 1); ("'a'", IntValue 2); ("5", IntValue 3);
            ("5", IntValue 4)] in
  let o := (evalEntries plainHost (evalExpr plainHost 1) es sc ∅ h).1 in
  (exists om, o = Ok om /\
     evalExpr plainHost 2 (objectNode es) sc h = (Ok (ObjectValue om), h) /\
     written plainHost (evalExpr plainHost 1) es sc h = w /\
     propertyAccess plainHost (ObjectValue om) (StringValue "a")
     = Ok (IntValue 2) /\
     propertyAccess plainHost (ObjectValue om) (IntValue 5)
     = Ok (IntValue 4)) /\
  (evalExpr plainHost 2 (objectNode [(str "a", int 1)]) sc h
   = (Ok (ObjectValue {["a" := IntValue 1]}), h) /\
   str "a" <> var "a" /\
   evalExpr plainHost 1 (str "a") sc h = (Ok (StringValue "a"), h) /\
   propertyAccess plainHost (ObjectValue {["a" := IntValue 1]})
     (StringValue "a") = Ok null).
Proof.
  intros sc h es w o.
  destruct (object_key_forms plainHost) as (_ & _ & _ & _ & G & S1).
  split.
  - eexists. split; [reflexivity|].
    assert (evalExpr plainHost 2 (objectNode es) sc h
            = (Ok (ObjectValue
                     (<["5" := IntValue 4]> (<["5" := IntValue 3]>
                        (<["'a'" := IntValue 2]>
                           (<["a" := IntValue 1]> ∅))))), h)) as E
      by reflexivity.
    split; [exact E|]. split; [reflexivity|].
    destruct (G 1%nat es sc h _ h E) as (_ & _ & Hr & _ & _ & Hlast).
    split.
    + exact (Hr (StringValue "a")).
    + apply (Hlast (IntValue 5)
               [("a", IntValue 1); ("'a'", IntValue 2); ("5", IntValue 3)]
               (IntValue 4) []); [reflexivity|].
      intros kv Hkv. by apply elem_of_nil in Hkv.
  - split; [reflexivity|]. split; [discriminate|]. split; [reflexivity|].
    apply (S1 1%nat (str "a") (int 1) sc h {["a" := IntValue 1]} h "a" h);
      [reflexivity | discriminate | reflexivity].
Defined.

(** ** More fuel changes no outcome *)

Lemma settled_refl {A} (c : M A) : settled c c.
Proof. by intros h r h' E _. Qed.

Lemma settled_bind {A B} (c c' : M A) (k k' : A -> M B) :
  settled c c' -> (forall a, settled (k a) (k' a)) ->
  settled (bind c k) (bind c' k').
Proof.
  intros Hc Hk h r h'. unfold bind.
  destruct (c h) as [[a|e|p|] h1] eqn:E.
  - rewrite (Hc _ _ _ E) by done. apply Hk.
  - rewrite (Hc _ _ _ E) by done. by intros [= <- <-].
  - rewrite (Hc _ _ _ E) by done. by intros [= <- <-].
  - by intros [= <- <-] [].
Qed.

Section SettledLoops.
Variable host : Natives.
Variables ev ev' : astNode -> scope -> M Value.
Hypothesis settled_ev : forall node sc, settled (ev node sc) (ev' node sc).

Lemma settled_evalElems (nodes : list astNode) (sc : scope) :
  settled (evalElems ev nodes sc) (evalElems ev' nodes sc).
Proof.
  induction nodes as [|n nodes IH]; simpl; [apply settled_refl|].
  apply settled_bind; [done|]. intros el.
  apply settled_bind; [done|]. intros els. apply settled_refl.
Qed.

Lemma settled_entryKey (key : astNode) (sc : scope) :
  settled (entryKey host ev key sc) (entryKey host ev' key sc).
Proof.
  destruct key; simpl; try apply settled_refl;
    (apply settled_bind; [done | intros k; apply settled_refl]).
Qed.

Lemma settled_evalEntries (entries : list (astNode * astNode)) (sc : scope)
    (obj : gmap string Value) :
  settled (evalEntries host ev entries sc obj)
          (evalEntries host ev' entries sc obj).
Proof.
  revert obj. induction entries as [|[key val] entries IH]; intros obj;
    simpl; [apply settled_refl|].
  apply settled_bind; [apply settled_entryKey|]. intros ks.
  apply settled_bind; [done|]. intros v. apply IH.
Qed.

Lemma settled_callFn (defn : defnPtr) (fsc : scope) (args : list Value) :
  settled (callFn ev defn fsc args) (callFn ev' defn fsc args).
Proof.
  unfold callFn. case_match; [apply settled_refl|].
  apply settled_bind; [apply settled_refl|]. intros l.
  apply settled_bind; [apply settled_refl|]. intros _. done.
Qed.

Lemma settled_evalBranches (cond : Value)
    (branches : list (astNode * astNode)) (sc : scope) :
  settled (evalBranches host ev cond branches sc)
          (evalBranches host ev' cond branches sc).
Proof.
  induction branches as [|[t b] branches IH]; simpl; [apply settled_refl|].
  apply settled_bind; [done|]. intros tv. by case_match.
Qed.

Lemma settled_evalBlock (exprs : list astNode) (blockScope : scope)
    (returnVal : Value) :
  settled (evalBlock ev exprs blockScope returnVal)
          (evalBlock ev' exprs blockScope returnVal).
Proof.
  revert returnVal. induction exprs as [|e exprs IH]; intros returnVal;
    simpl; [apply settled_refl|].
  apply settled_bind; [done|]. intros v. apply IH.
Qed.

Lemma settled_evalNode (node : astNode) (sc : scope) :
  settled (evalNode host ev node sc) (evalNode host ev' node sc).
Proof.
  destruct node; simpl; try apply settled_refl.
  - apply settled_bind; [apply settled_evalElems|].
    intros els. apply settled_refl.
  - apply settled_bind; [apply settled_evalEntries|].
    intros obj. apply settled_refl.
  - apply settled_bind; [done|]. intros assignedValue. apply settled_refl.
  - apply settled_bind; [done|]. intros l.
    apply settled_bind; [done|]. intros r. apply settled_refl.
  - apply settled_bind; [done|]. intros maybeFn.
    apply settled_bind; [apply settled_evalElems|]. intros argv.
    destruct maybeFn; try apply settled_refl. apply settled_callFn.
  - apply settled_bind; [done|]. intros c. apply settled_evalBranches.
  - apply settled_bind; [apply settled_refl|]. intros l.
    apply settled_evalBlock.
Qed.

End SettledLoops.

Lemma evalExpr_S (host : Natives) (fuel : nat) (node : astNode) (sc : scope) :
  settled (evalExpr host fuel node sc) (evalExpr host (S fuel) node sc).
Proof.
  revert node sc. induction fuel as [|fuel IH]; intros node sc.
  - by intros h r h' [= <- <-] [].
  - change (settled (evalNode host (evalExpr host fuel) node sc)
              (evalNode host (evalExpr host (S fuel)) node sc)).
    by apply settled_evalNode.
Qed.

(** An outcome reached with some fuel is the outcome with any larger
    fuel: the bound of the model decides no result. *)
Lemma evalExpr_more_fuel (host : Natives) (fuel extra : nat) (node : astNode)
    (sc : scope) :
  settled (evalExpr host fuel node sc) (evalExpr host (extra + fuel) node sc).
Proof.
  induction extra as [|extra IH]; [apply settled_refl|].
  intros h r h' E Hr. apply (evalExpr_S host (extra + fuel)); [|done].
  by apply IH.
Qed.

(** ** Scopes built by the evaluator *)

Lemma scope_ok_NewContext : scope_ok NewContext.2 NewContext.1.
Proof.
  split; simpl.
  - apply NoDup_singleton.
  - intros l ->%list_elem_of_singleton. lia.
Qed.

Lemma scope_ok_grows (h h' : Store) (sc : scope) :
  grows h h' -> scope_ok h sc -> scope_ok h' sc.
Proof.
  intros [_ Hlen] [Hnd Hall]. split; [done|].
  intros l Hl. specialize (Hall l Hl). lia.
Qed.

(** The scope of a block, and of the body of a call, has a new map in
    front of the chain of its parent. *)
Lemma scope_ok_child (h : Store) (sc : scope) (l : loc) (h' : Store) :
  scope_ok h sc -> newMap h = (Ok l, h') ->
  scope_ok h' (mkScope (Some sc) l) /\ maps h' !! l = Some ∅.
Proof.
  intros [Hnd Hall] [= <- <-]. split; [split|]; simpl.
  - apply NoDup_cons. split; [|done].
    intros Hin. specialize (Hall _ Hin). lia.
  - intros l [->|Hl]%elem_of_cons; rewrite length_app; simpl; [lia|].
    specialize (Hall _ Hl). lia.
  - by rewrite lookup_app_r, Nat.sub_diag.
Qed.

(** ** The programs of the README and of the specification *)

(** [n := 10, m := 20, { n <- 30, m := 40 }, [n, m]] *)
Example nonlocal_and_local_assignment :
  (run plainHost 4
     [assignmentNode true (var "n") (int 10);
      assignmentNode true (var "m") (int 20);
      blockNode [assignmentNode false (var "n") (int 30);
                 assignmentNode true (var "m") (int 40)];
      listNode [var "n"; var "m"]]).1
  = Ok (ListValue [IntValue 30; IntValue 20]).
Proof. reflexivity. Qed.

(** [n := 10, f := fn() n, n <- 30, f()]: the function sees the
    assignment made after it was built. *)
Example closure_sees_later_assignment :
  (run plainHost 5
     [assignmentNode true (var "n") (int 10);
      fnNodeE (mkFnNode "f" [] (var "n"));
      assignmentNode false (var "n") (int 30);
      fnCallNode (var "f") []]).1
  = Ok (IntValue 30).
Proof. reflexivity. Qed.

(** ['abc'.(1)], ['abc'.(-1)] and ['abc'.(4)] *)
Example string_indexing :
  (run plainHost 3 [propertyAccessNode (str "abc") (int 1)]).1
    = Ok (StringValue "b") /\
  (run plainHost 3 [propertyAccessNode (str "abc") (int (-1))]).1
    = Ok null /\
  (run plainHost 3 [propertyAccessNode (str "abc") (int 4)]).1 = Ok null.
Proof. repeat split. Qed.

(** Deep equality of lists and objects. *)
Example deep_equality :
  Value_Eq plainHost (ListValue [IntValue 1; IntValue 2])
    (ListValue [IntValue 1; IntValue 2]) = true /\
  Value_Eq plainHost (ListValue [IntValue 1; IntValue 2])
    (ListValue [IntValue 2; IntValue 1]) = false /\
  Value_Eq plainHost
    (ObjectValue (<["a" := IntValue 1]> (<["b" := IntValue 2]> ∅)))
    (ObjectValue (<["b" := IntValue 2]> (<["a" := IntValue 1]> ∅))) = true.
Proof. repeat split. Qed.

(** A function value as the subject of a match is not caught by the
    wildcard pattern: [if fn() ? { _ -> 1 }] is null. *)
Example wildcard_misses_function :
  (run plainHost 4
     [ifExprNode (fnNodeE (mkFnNode "" [] nullNode)) [(emptyNode, int 1)]]).1
  = Ok null.
Proof. reflexivity. Qed.

(** ** The byte slice helpers *)

(** X1. [zeroExtend s max] has the larger of the two lengths, starts with
    the bytes of [s] and has zero bytes after them; two slices extended to
    their [maxLen] have the same length. *)
Theorem zeroExtend_pads (s : list Byte.byte) (max : Z) :
  Z.of_nat (length (zeroExtend s max)) = Z.max (Z.of_nat (length s)) max /\
  take (length s) (zeroExtend s max) = s /\
  (forall i b, (length s <= i)%nat -> zeroExtend s max !! i = Some b ->
     b = Byte.x00) /\
  (forall t, length (zeroExtend s (maxLen s t))
             = length (zeroExtend t (maxLen s t))).
Proof.
  assert (forall (u : list Byte.byte) (n : Z),
            Z.of_nat (length (zeroExtend u n))
            = Z.max (Z.of_nat (length u)) n) as Hlen.
  { intros u n. unfold zeroExtend.
    destruct (Z.leb_spec n (Z.of_nat (length u))); [lia|].
    rewrite length_app, length_replicate. lia. }
  split; [apply Hlen|]. split; [|split].
  - unfold zeroExtend. case_match; [by rewrite firstn_all|].
    by rewrite take_app_length.
  - unfold zeroExtend. case_match.
    + intros i b Hi Hb. apply lookup_lt_Some in Hb. lia.
    + intros i b Hi Hb. rewrite lookup_app_r in Hb by done.
      by apply lookup_replicate in Hb as [-> _].
  - intros t. apply Nat2Z.inj. rewrite !Hlen. unfold maxLen.
    destruct (Z.ltb_spec (Z.of_nat (length s)) (Z.of_nat (length t))); lia.
Qed.

(** ** More on equality *)

Section EqMore.
Variable host : Natives.

Lemma list_loop_Forall2 (l w : list Value) :
  length l = length w ->
  (fix loop (l w : list Value) {struct l} : bool :=
     match l, w with
     | el :: l', wi :: w' =>
         if negb (Value_Eq host el wi) then false else loop l' w'
     | _, _ => true
     end) l w = true <->
  Forall2 (fun el wi => Value_Eq host el wi = true) l w.
Proof.
  revert w. induction l as [|el l IH]; intros [|wi w] Hlen; try done.
  simpl in Hlen. injection Hlen as Hlen.
  rewrite Forall2_cons. rewrite <- (IH w Hlen).
  destruct (Value_Eq host el wi); simpl; [tauto|].
  split; [done | by intros []].
Qed.

Lemma object_loop_spec (w m : gmap string Value) :
  map_fold (fun key val acc =>
     acc && match w !! key with
            | Some wVal => Value_Eq host val wVal
            | None => false
            end) true m = true <->
  forall key val, m !! key = Some val ->
    exists wVal, w !! key = Some wVal /\ Value_Eq host val wVal = true.
Proof.
  apply (map_fold_weak_ind
    (fun (r : bool) (m : gmap string Value) =>
       r = true <->
       forall key val, m !! key = Some val ->
         exists wVal, w !! key = Some wVal /\ Value_Eq host val wVal = true)).
  - split; [|done]. intros _ key val Hk. by rewrite lookup_empty in Hk.
  - intros i x m' r Hi IH. rewrite andb_true_iff, IH. split.
    + intros [Hm Hx] key val Hk.
      destruct (decide (i = key)) as [->|Hne].
      * rewrite lookup_insert_eq in Hk. injection Hk as <-.
        destruct (w !! key); [eauto | done].
      * rewrite lookup_insert_ne in Hk by done. eauto.
    + intros Hall. split.
      * intros key val Hk. apply Hall.
        rewrite lookup_insert_ne; [done|]. intros ->. congruence.
      * destruct (Hall i x) as (wVal & -> & Hx); [|done].
        by rewrite lookup_insert_eq.
Qed.

End EqMore.

(** X2. Equality of lists is equality of the lengths and of the elements
    at each position; equality of objects is equality of the numbers of
    entries and, for each key of the first, an equal value under that key
    in the second. *)
Theorem Eq_deep (host : Natives) :
  (forall l w,
     Value_Eq host (ListValue l) (ListValue w) = true <->
     length l = length w /\
     Forall2 (fun el wi => Value_Eq host el wi = true) l w) /\
  (forall m w,
     Value_Eq host (ObjectValue m) (ObjectValue w) = true <->
     size m = size w /\
     forall key val, m !! key = Some val ->
       exists wVal, w !! key = Some wVal /\ Value_Eq host val wVal = true).
Proof.
  split.
  - intros l w. simpl.
    destruct (Nat.eqb_spec (length l) (length w)) as [Hlen|Hlen]; simpl.
    + rewrite (list_loop_Forall2 host l w Hlen). tauto.
    + split; [done | by intros []].
  - intros m w. simpl.
    destruct (Nat.eqb_spec (size m) (size w)) as [Hlen|Hlen]; simpl.
    + rewrite (object_loop_spec host w m). tauto.
    + split; [done | by intros []].
Qed.

(** X3. No value is equal to a value of another variant, the empty value
    apart: a null, string, integer, float, boolean, atom, list, object or
    function value is equal only to the empty value (function values: not
    even to that) and to values of its own variant. In particular an
    integer is never equal to a float. *)
Theorem Eq_same_variant (host : Natives) (v u : Value) :
  Value_Eq host v u = true ->
  v = EmptyValue \/ (exists id, v = BuiltinFnValue id) \/ u = EmptyValue \/
  match v, u with
  | NullValue, NullValue
  | StringValue _, StringValue _
  | IntValue _, IntValue _
  | FloatValue _, FloatValue _
  | BoolValue _, BoolValue _
  | AtomValue _, AtomValue _
  | ListValue _, ListValue _
  | ObjectValue _, ObjectValue _
  | FnValue _ _, FnValue _ _ => True
  | _, _ => False
  end.
Proof.
  destruct v; eauto; destruct u; try discriminate; eauto.
Qed.

Lemma Eq_same_variant_witness :
  Value_Eq plainHost (IntValue 1) (IntValue 1) = true /\
  (IntValue 1 = EmptyValue \/
   (exists id, IntValue 1 = BuiltinFnValue id) \/
   IntValue 1 = EmptyValue \/ True).
Proof.
  split; [reflexivity|].
  exact (Eq_same_variant plainHost (IntValue 1) (IntValue 1) eq_refl).
Defined.

(** ** Reading names *)

Section GetFacts.

Lemma scope_get_unfold (sc : scope) (name : string) (h : Store) :
  scope_get sc name h =
    match mapIndex (vars sc) name h with
    | Some v => Ok v
    | None =>
        match parent sc with
        | Some p => scope_get p name h
        | None => Err (undefined name)
        end
    end.
Proof. by destruct sc. Qed.

Lemma vars_head (sc : scope) (l : loc) (rest : list loc) :
  chain sc = l :: rest -> vars sc = l.
Proof. destruct sc as [[]]; simpl; by intros [= <- _]. Qed.

Lemma chain_tail (sc : scope) (l l0 : loc) (rest : list loc) :
  chain sc = l :: l0 :: rest ->
  exists p, parent sc = Some p /\ chain p = l0 :: rest.
Proof.
  destruct sc as [[p|] l']; simpl; [|discriminate].
  intros [= _ E]. by exists p.
Qed.

Lemma scope_get_nearest (sc : scope) (name : string) (h : Store)
    (pre post : list loc) (l : loc) (v : Value) :
  chain sc = (pre ++ l :: post)%list ->
  (forall l', l' ∈ pre -> mapIndex l' name h = None) ->
  mapIndex l name h = Some v ->
  scope_get sc name h = Ok v.
Proof.
  revert sc. induction pre as [|l0 pre IH]; intros sc Hch Hpre Hl;
    rewrite scope_get_unfold, (vars_head _ _ _ Hch).
  - by rewrite Hl.
  - rewrite Hpre by set_solver.
    assert (exists l1 rest, (pre ++ l :: post)%list = l1 :: rest)
      as (l1 & rest & E) by (destruct pre; simpl; eauto).
    simpl in Hch. rewrite E in Hch.
    destruct (chain_tail _ _ _ _ Hch) as (p & -> & Hp).
    apply IH; [by rewrite E | set_solver | done].
Qed.

Lemma scope_get_undefined (sc : scope) (name : string) (h : Store) :
  (forall l, l ∈ chain sc -> mapIndex l name h = None) ->
  scope_get sc name h = Err (undefined name).
Proof.
  remember (chain sc) as ch eqn:Hch. revert sc Hch.
  induction ch as [|l0 ch IH]; intros sc Hch Hnone.
  - by destruct (chain_not_nil sc).
  - rewrite scope_get_unfold, (vars_head _ _ _ (eq_sym Hch)).
    rewrite Hnone by set_solver.
    destruct (parent sc) as [p|] eqn:Hp; [|done].
    apply IH; [|set_solver].
    rewrite (chain_parent _ _ Hp) in Hch. by inversion Hch.
Qed.

(** A read only looks at the name read, in the maps of the chain. *)
Lemma scope_get_ext (sc : scope) (name : string) (h h' : Store) :
  (forall l, l ∈ chain sc -> mapIndex l name h' = mapIndex l name h) ->
  scope_get sc name h' = scope_get sc name h.
Proof.
  remember (chain sc) as ch eqn:Hch. revert sc Hch.
  induction ch as [|l0 ch IH]; intros sc Hch Hsame.
  - by destruct (chain_not_nil sc).
  - rewrite !scope_get_unfold, (vars_head _ _ _ (eq_sym Hch)).
    rewrite Hsame by set_solver.
    destruct (mapIndex l0 name h); [done|].
    destruct (parent sc) as [p|] eqn:Hp; [|done].
    apply IH; [|set_solver].
    rewrite (chain_parent _ _ Hp) in Hch. by inversion Hch.
Qed.

Lemma scope_get_Err (sc : scope) (name : string) (h : Store)
    (e : runtimeError) :
  scope_get sc name h = Err e ->
  e = undefined name /\ forall l, l ∈ chain sc -> mapIndex l name h = None.
Proof.
  remember (chain sc) as ch eqn:Hch. revert sc Hch.
  induction ch as [|l0 ch IH]; intros sc Hch.
  - by destruct (chain_not_nil sc).
  - rewrite scope_get_unfold, (vars_head _ _ _ (eq_sym Hch)).
    destruct (mapIndex l0 name h) eqn:Hl0; [done|].
    destruct (parent sc) as [p|] eqn:Hp.
    + rewrite (chain_parent _ _ Hp) in Hch. injection Hch as _ Hch.
      intros [-> Hall]%(IH p Hch). split; [done|].
      intros l [->|Hl]%elem_of_cons; [done | by apply Hall].
    + rewrite (chain_root _ Hp) in Hch. injection Hch as _ ->.
      intros [= <-]. split; [done|].
      intros l [->|Hl]%elem_of_cons; [done | by apply elem_of_nil in Hl].
Qed.

Lemma mapIndex_mapAssign (l : loc) (name : string) (v : Value) (h : Store)
    (r : Res unit) (h' : Store) (l' : loc) (x : string) :
  mapAssign l name v h = (r, h') ->
  mapIndex l' x h' =
    if bool_decide (l' = l /\ x = name /\ is_Some (maps h !! l))
    then Some v else mapIndex l' x h.
Proof.
  unfold mapAssign, mapIndex. destruct (maps h !! l) as [m|] eqn:Hm.
  - intros [= <- <-]. simpl. case_bool_decide as Hd.
    + destruct Hd as (-> & -> & _).
      rewrite list_lookup_insert_eq by (by eapply lookup_lt_Some).
      by rewrite lookup_insert_eq.
    + destruct (decide (l' = l)) as [->|Hne].
      * rewrite list_lookup_insert_eq by (by eapply lookup_lt_Some).
        rewrite Hm. rewrite lookup_insert_ne; [done|].
        intros <-. apply Hd. eauto.
      * by rewrite list_lookup_insert_ne.
  - intros [= <- <-]. case_bool_decide as Hd; [|done].
    by destruct Hd as (_ & _ & []).
Qed.

(** [update] changes the value of the name in the one map it writes, and
    nothing else. *)
Lemma mapIndex_scope_update (sc : scope) (name : string) (v : Value)
    (h : Store) (r : Res unit) (h' : Store) (l : loc) (x : string) :
  scope_update sc name v h = (r, h') ->
  mapIndex l x h' = mapIndex l x h \/
  (x = name /\ is_Some (mapIndex l name h) /\ mapIndex l x h' = Some v).
Proof.
  remember (chain sc) as ch eqn:Hch. revert sc Hch.
  induction ch as [|l0 ch IH]; intros sc Hch.
  - by destruct (chain_not_nil sc).
  - rewrite scope_update_unfold, (vars_head _ _ _ (eq_sym Hch)).
    destruct (mapIndex l0 name h) as [old|] eqn:Hl0.
    + intros E. rewrite (mapIndex_mapAssign _ _ _ _ _ _ l x E).
      case_bool_decide as Hd; [|by left].
      destruct Hd as (-> & -> & _). right. rewrite Hl0. eauto.
    + destruct (parent sc) as [p|] eqn:Hp.
      * rewrite (chain_parent _ _ Hp) in Hch. injection Hch as _ Hch.
        by apply IH.
      * intros [= <- <-]. by left.
Qed.

End GetFacts.

(** X4. A read finds the binding of the innermost scope that has the
    name: bindings of the same name further out are shadowed; when no
    scope of the chain has the name the read fails with the
    undefined-variable error for that name, and it fails in no other
    way. *)
Theorem scope_get_shadowing (sc : scope) (name : string) (h : Store) :
  (forall pre l post v,
     chain sc = (pre ++ l :: post)%list ->
     (forall l', l' ∈ pre -> mapIndex l' name h = None) ->
     mapIndex l name h = Some v ->
     scope_get sc name h = Ok v) /\
  ((forall l, l ∈ chain sc -> mapIndex l name h = None) <->
   scope_get sc name h = Err (undefined name)) /\
  (forall p, scope_get sc name h <> Panic p) /\
  scope_get sc name h <> OutOfFuel.
Proof.
  split; [|split; [|split]].
  - intros *. apply scope_get_nearest.
  - split; [apply scope_get_undefined|]. by intros [_ H]%scope_get_Err.
  - remember (chain sc) as ch eqn:Hch. revert sc Hch.
    induction ch as [|l0 ch IH]; intros sc Hch p'.
    + by destruct (chain_not_nil sc).
    + rewrite scope_get_unfold. destruct (mapIndex _ _ _); [done|].
      destruct (parent sc) as [q|] eqn:Hq; [|done].
      rewrite (chain_parent _ _ Hq) in Hch. injection Hch as _ Hch.
      by apply IH.
  - remember (chain sc) as ch eqn:Hch. revert sc Hch.
    induction ch as [|l0 ch IH]; intros sc Hch.
    + by destruct (chain_not_nil sc).
    + rewrite scope_get_unfold. destruct (mapIndex _ _ _); [done|].
      destruct (parent sc) as [q|] eqn:Hq; [|done].
      rewrite (chain_parent _ _ Hq) in Hch. injection Hch as _ Hch.
      by apply IH.
Qed.

Lemma scope_get_shadowing_witness :
  let outer := mkScope None 0 in
  let inner := mkScope (Some outer) 1 in
  let h := mkStore [{["n" := IntValue 10]}; {["n" := IntValue 30]}] 0 in
  chain inner = ([] ++ 1%nat :: [0%nat])%list /\
  (forall l', l' ∈ ([] : list loc) -> mapIndex l' "n" h = None) /\
  mapIndex 1 "n" h = Some (IntValue 30) /\
  scope_get inner "n" h = Ok (IntValue 30).
Proof.
  intros outer inner h.
  assert (forall l', l' ∈ ([] : list loc) -> mapIndex l' "n" h = None) as Hpre.
  { intros l' Hl. by apply elem_of_nil in Hl. }
  split; [reflexivity|]. split; [exact Hpre|]. split; [reflexivity|].
  exact (proj1 (scope_get_shadowing inner "n" h) [] 1%nat [0%nat]
           (IntValue 30) eq_refl Hpre eq_refl).
Defined.

(** X5. After a local assignment in a scope whose map exists, a read of
    the name in that scope gives the assigned value, and a read of any
    other name gives what it gave before. *)
Theorem put_then_get (sc : scope) (name : string) (v : Value) (h : Store) :
  is_Some (maps h !! vars sc) ->
  exists h',
    scope_put sc name v h = (Ok tt, h') /\
    scope_get sc name h' = Ok v /\
    forall sc' name', name' <> name ->
      scope_get sc' name' h' = scope_get sc' name' h.
Proof.
  intros [m Hm]. eexists. split; [by apply scope_put_local|].
  assert (scope_put sc name v h
          = (Ok tt, mkStore (<[vars sc := <[name := v]> m]> (maps h))
                      (defns h))) as E by (by apply scope_put_local).
  split.
  - rewrite scope_get_unfold.
    rewrite (mapIndex_mapAssign _ _ _ _ _ _ (vars sc) name E).
    rewrite bool_decide_eq_true_2; [done|]. rewrite Hm. eauto.
  - intros sc' name' Hne. apply scope_get_ext. intros l _.
    rewrite (mapIndex_mapAssign _ _ _ _ _ _ l name' E).
    rewrite bool_decide_eq_false_2; [done|]. by intros (_ & ? & _).
Qed.

Lemma put_then_get_witness :
  let sc := mkScope None 0 in
  let h := mkStore [{["m" := IntValue 1]}] 0 in
  is_Some (maps h !! vars sc) /\
  exists h',
    scope_put sc "n" (IntValue 2) h = (Ok tt, h') /\
    scope_get sc "n" h' = Ok (IntValue 2) /\
    forall sc' name', name' <> "n" ->
      scope_get sc' name' h' = scope_get sc' name' h.
Proof.
  intros sc h.
  assert (is_Some (maps h !! vars sc)) as Hm by (simpl; eauto).
  split; [exact Hm|]. exact (put_then_get sc "n" (IntValue 2) h Hm).
Defined.

Section UpdateFacts.

Lemma scope_get_cases (sc : scope) (name : string) (h : Store) :
  (exists v, scope_get sc name h = Ok v) \/
  scope_get sc name h = Err (undefined name).
Proof.
  remember (chain sc) as ch eqn:Hch. revert sc Hch.
  induction ch as [|l0 ch IH]; intros sc Hch.
  - by destruct (chain_not_nil sc).
  - rewrite scope_get_unfold. destruct (mapIndex _ _ _); [eauto|].
    destruct (parent sc) as [q|] eqn:Hq; [|by right].
    rewrite (chain_parent _ _ Hq) in Hch. injection Hch as _ Hch.
    by apply IH.
Qed.

Lemma mapAssign_Ok (l : loc) (name : string) (v old : Value) (h : Store) :
  mapIndex l name h = Some old ->
  exists h', mapAssign l name v h = (Ok tt, h').
Proof.
  unfold mapIndex, mapAssign. destruct (maps h !! l); [eauto | done].
Qed.

Lemma scope_update_of_get (sc : scope) (name : string) (v : Value)
    (h : Store) :
  (forall old, scope_get sc name h = Ok old ->
     exists h', scope_update sc name v h = (Ok tt, h')) /\
  (forall e, scope_get sc name h = Err e ->
     scope_update sc name v h = (Err e, h)).
Proof.
  remember (chain sc) as ch eqn:Hch. revert sc Hch.
  induction ch as [|l0 ch IH]; intros sc Hch.
  - by destruct (chain_not_nil sc).
  - rewrite scope_get_unfold, scope_update_unfold.
    destruct (mapIndex (vars sc) name h) as [old|] eqn:Hl0.
    + split; [|done]. intros _ _. by eapply mapAssign_Ok.
    + destruct (parent sc) as [q|] eqn:Hq.
      * rewrite (chain_parent _ _ Hq) in Hch. injection Hch as _ Hch.
        by apply IH.
      * split; [done|]. by intros e [= <-].
Qed.

Lemma scope_update_then_get (sc : scope) (name : string) (v : Value)
    (h h' : Store) :
  scope_update sc name v h = (Ok tt, h') -> scope_get sc name h' = Ok v.
Proof.
  remember (chain sc) as ch eqn:Hch. revert sc Hch.
  induction ch as [|l0 ch IH]; intros sc Hch.
  - by destruct (chain_not_nil sc).
  - rewrite scope_get_unfold, scope_update_unfold.
    destruct (mapIndex (vars sc) name h) as [old|] eqn:Hl0.
    + intros E. rewrite (mapIndex_mapAssign _ _ _ _ _ _ (vars sc) name E).
      rewrite bool_decide_eq_true_2; [done|].
      split; [done|]. split; [done|].
      unfold mapIndex in Hl0. destruct (maps h !! vars sc); [eauto|done].
    + destruct (parent sc) as [q|] eqn:Hq; [|done].
      rewrite (chain_parent _ _ Hq) in Hch. injection Hch as _ Hch.
      intros E.
      destruct (mapIndex_scope_update _ _ _ _ _ _ (vars sc) name E)
        as [->|(_ & _ & ->)]; [|done].
      rewrite Hl0. by apply IH.
Qed.

End UpdateFacts.

(** X6. A nonlocal assignment succeeds exactly when a read of the name
    succeeds, and fails with the same undefined-variable error, leaving
    the store as it was, exactly when the read fails; after it succeeds
    the read gives the assigned value; and the reads of all other names,
    from any scope, are as before. *)
Theorem update_then_get (sc : scope) (name : string) (v : Value)
    (h : Store) :
  ((exists old, scope_get sc name h = Ok old) <->
   (exists h', scope_update sc name v h = (Ok tt, h'))) /\
  (scope_get sc name h = Err (undefined name) <->
   scope_update sc name v h = (Err (undefined name), h)) /\
  (forall h', scope_update sc name v h = (Ok tt, h') ->
     scope_get sc name h' = Ok v) /\
  (forall r h' sc' name',
     scope_update sc name v h = (r, h') -> name' <> name ->
     scope_get sc' name' h' = scope_get sc' name' h).
Proof.
  destruct (scope_update_of_get sc name v h) as [HOk HErr].
  split; [|split; [|split]].
  - split; [intros [old E]; by eapply HOk|]. intros [h' E].
    destruct (scope_get_cases sc name h) as [|E']; [done|].
    rewrite (HErr _ E') in E. discriminate.
  - split; [apply HErr|]. intros E.
    destruct (scope_get_cases sc name h) as [[old E']|]; [|done].
    destruct (HOk _ E') as [h' E'']. rewrite E'' in E. discriminate.
  - intros h'. apply scope_update_then_get.
  - intros r h' sc' name' E Hne. apply scope_get_ext. intros l _.
    destruct (mapIndex_scope_update _ _ _ _ _ _ l name' E)
      as [|(-> & _)]; done.
Qed.

(** X7. The scope that a block or a call starts with, a new empty map in
    front of the parent, reads for every name what the parent read before
    the map was made. *)
Theorem child_scope_reads_parent (sc : scope) (h : Store) (l : loc)
    (h1 : Store) :
  newMap h = (Ok l, h1) ->
  forall name,
    scope_get (mkScope (Some sc) l) name h1 = scope_get sc name h.
Proof.
  intros [= <- <-] name. rewrite scope_get_unfold. simpl.
  assert (forall l', mapIndex l' name (mkStore (maps h ++ [∅]) (defns h))
                     = mapIndex l' name h) as Hsame.
  { intros l'. unfold mapIndex. simpl.
    destruct (decide (l' < length (maps h))%nat) as [Hlt|Hge].
    - by rewrite lookup_app_l.
    - rewrite (lookup_ge_None_2 (maps h)) by lia.
      destruct (decide (l' = length (maps h))) as [->|Hne].
      + by rewrite lookup_app_r, Nat.sub_diag.
      + rewrite lookup_ge_None_2; [done|]. rewrite length_app. simpl. lia. }
  rewrite Hsame. unfold mapIndex at 1.
  rewrite (lookup_ge_None_2 (maps h)) by lia.
  apply scope_get_ext. intros l' _. apply Hsame.
Qed.

Lemma child_scope_reads_parent_witness :
  let sc := mkScope None 0 in
  let h := mkStore [{["n" := IntValue 10]}] 0 in
  newMap h = (Ok 1%nat, mkStore [{["n" := IntValue 10]}; ∅] 0) /\
  scope_get (mkScope (Some sc) 1) "n" (mkStore [{["n" := IntValue 10]}; ∅] 0)
  = scope_get sc "n" h.
Proof.
  intros sc h. split; [reflexivity|].
  exact (child_scope_reads_parent sc h 1%nat _ eq_refl "n").
Defined.

(** ** Where names are added *)

Lemma keeps_names_refl (cur : loc) (h : Store) : keeps_names cur h h.
Proof. intros l m Hm. exists m. by repeat split. Qed.

Lemma keeps_names_trans (cur : loc) (h1 h2 h3 : Store) :
  keeps_names cur h1 h2 -> keeps_names cur h2 h3 -> keeps_names cur h1 h3.
Proof.
  intros H12 H23 l m Hm.
  destruct (H12 l m Hm) as (m2 & Hm2 & Hsub2 & Heq2).
  destruct (H23 l m2 Hm2) as (m3 & Hm3 & Hsub3 & Heq3).
  exists m3. split; [done|]. split; [by etrans|].
  intros Hne. rewrite (Heq3 Hne). by apply Heq2.
Qed.

(** What happens in a scope with a map made after [h] adds no name to the
    maps of [h]. *)
Lemma keeps_names_fresh (h h1 h2 : Store) (l0 : loc) :
  newMap h = (Ok l0, h1) -> keeps_names l0 h1 h2 ->
  forall cur, keeps_names cur h h2.
Proof.
  intros [= <- <-] H12 cur l m Hm.
  assert (l < length (maps h))%nat as Hlt by (by eapply lookup_lt_Some).
  destruct (H12 l m) as (m2 & Hm2 & Hsub & Heq).
  { simpl. by rewrite lookup_app_l. }
  exists m2. split; [done|]. split; [done|]. intros _. apply Heq. lia.
Qed.

Lemma local_to_ret {A} (cur : loc) (a : A) : local_to cur (ret a).
Proof. intros h r h' [= <- <-]. apply keeps_names_refl. Qed.

Lemma local_to_fail {A} (cur : loc) (e : runtimeError) :
  local_to cur (@fail A e).
Proof. intros h r h' [= <- <-]. apply keeps_names_refl. Qed.

Lemma local_to_throw {A} (cur : loc) (p : panic) : local_to cur (@throw A p).
Proof. intros h r h' [= <- <-]. apply keeps_names_refl. Qed.

Lemma local_to_lift {A} (cur : loc) (r : Res A) : local_to cur (lift r).
Proof. intros h r' h' [= <- <-]. apply keeps_names_refl. Qed.

Lemma local_to_bind {A B} (cur : loc) (c : M A) (k : A -> M B) :
  local_to cur c -> (forall a, local_to cur (k a)) -> local_to cur (bind c k).
Proof.
  intros Hc Hk h r h'. unfold bind.
  destruct (c h) as [[a|e|p|] h1] eqn:E; specialize (Hc _ _ _ E).
  - intros E'. eapply keeps_names_trans; [done|]. by eapply Hk.
  - by intros [= <- <-].
  - by intros [= <- <-].
  - by intros [= <- <-].
Qed.

Lemma local_to_mapAssign (l : loc) (name : string) (v : Value) :
  local_to l (mapAssign l name v).
Proof.
  intros h r h'. unfold mapAssign. destruct (maps h !! l) as [m|] eqn:Hm.
  - intros [= <- <-] l' m' Hm'. simpl.
    destruct (decide (l' = l)) as [->|Hne].
    + rewrite list_lookup_insert_eq by (by eapply lookup_lt_Some).
      exists (<[name := v]> m). split; [done|].
      assert (m' = m) as -> by congruence.
      split; [|done]. rewrite dom_insert_L. set_solver.
    + rewrite list_lookup_insert_ne by done. exists m'. by repeat split.
  - intros [= <- <-]. apply keeps_names_refl.
Qed.

Lemma local_to_newMap (cur : loc) : local_to cur newMap.
Proof.
  intros h r h' [= <- <-] l m Hm. exists m. simpl.
  rewrite lookup_app_l by (by eapply lookup_lt_Some). by repeat split.
Qed.

Lemma local_to_newDefn (cur : loc) (n : fnNode) : local_to cur (newDefn n).
Proof. intros h r h' [= <- <-] l m Hm. exists m. by repeat split. Qed.

(** A nonlocal assignment adds no name anywhere. *)
Lemma local_to_scope_update (cur : loc) (sc : scope) (name : string)
    (v : Value) :
  local_to cur (scope_update sc name v).
Proof.
  remember (chain sc) as ch eqn:Hch. revert sc Hch.
  induction ch as [|l0 ch IH]; intros sc Hch h r h'.
  - by destruct (chain_not_nil sc).
  - rewrite scope_update_unfold.
    destruct (mapIndex (vars sc) name h) as [old|] eqn:Hl0.
    + unfold mapIndex in Hl0. unfold mapAssign.
      destruct (maps h !! vars sc) as [m|] eqn:Hm; [|done].
      intros [= <- <-] l' m' Hm'. simpl.
      destruct (decide (l' = vars sc)) as [->|Hne].
      * rewrite list_lookup_insert_eq by (by eapply lookup_lt_Some).
        exists (<[name := v]> m). split; [done|].
        assert (m' = m) as -> by congruence.
        rewrite dom_insert_lookup_L by eauto. by split.
      * rewrite list_lookup_insert_ne by done. exists m'. by repeat split.
    + destruct (parent sc) as [q|] eqn:Hq.
      * rewrite (chain_parent _ _ Hq) in Hch. injection Hch as _ Hch.
        by apply IH.
      * intros [= <- <-]. apply keeps_names_refl.
Qed.

Section LocalLoops.
Variable host : Natives.
Variable ev : astNode -> scope -> M Value.
Hypothesis local_ev : forall node sc, local_to (vars sc) (ev node sc).

Lemma local_to_evalElems (nodes : list astNode) (sc : scope) :
  local_to (vars sc) (evalElems ev nodes sc).
Proof.
  induction nodes as [|n nodes IH]; simpl; [apply local_to_ret|].
  apply local_to_bind; [done|]. intros el.
  apply local_to_bind; [done|]. intros els. apply local_to_ret.
Qed.

Lemma local_to_entryKey (key : astNode) (sc : scope) :
  local_to (vars sc) (entryKey host ev key sc).
Proof.
  destruct key; simpl; try apply local_to_ret;
    (apply local_to_bind; [done | intros k; apply local_to_lift]).
Qed.

Lemma local_to_evalEntries (entries : list (astNode * astNode)) (sc : scope)
    (obj : gmap string Value) :
  local_to (vars sc) (evalEntries host ev entries sc obj).
Proof.
  revert obj. induction entries as [|[key val] entries IH]; intros obj;
    simpl; [apply local_to_ret|].
  apply local_to_bind; [apply local_to_entryKey|]. intros ks.
  apply local_to_bind; [done|]. intros v. apply IH.
Qed.

Lemma local_to_bindArgs (fnScope : scope) (names : list string) (i : nat)
    (args : list Value) :
  local_to (vars fnScope) (bindArgs fnScope names i args).
Proof.
  revert i. induction names as [|x names IH]; intros i; simpl;
    [apply local_to_ret|].
  destruct (args !! i); [|apply local_to_throw].
  apply local_to_bind; [apply local_to_mapAssign|]. intros _. apply IH.
Qed.

Lemma local_to_evalBranches (cond : Value)
    (branches : list (astNode * astNode)) (sc : scope) :
  local_to (vars sc) (evalBranches host ev cond branches sc).
Proof.
  induction branches as [|[t b] branches IH]; simpl; [apply local_to_ret|].
  apply local_to_bind; [done|]. intros tv. by case_match.
Qed.

Lemma local_to_evalBlock (exprs : list astNode) (blockScope : scope)
    (returnVal : Value) :
  local_to (vars blockScope) (evalBlock ev exprs blockScope returnVal).
Proof.
  revert returnVal. induction exprs as [|e exprs IH]; intros returnVal;
    simpl; [apply local_to_ret|].
  apply local_to_bind; [done|]. intros v. apply IH.
Qed.

(** The body of a call runs in a scope of its own. *)
Lemma local_to_callFn (cur : loc) (defn : defnPtr) (fsc : scope)
    (args : list Value) :
  local_to cur (callFn ev defn fsc args).
Proof.
  unfold callFn. case_match; [apply local_to_throw|].
  intros h r h' E. unfold bind in E at 1.
  destruct (newMap h) as [r0 h1] eqn:En.
  assert (r0 = Ok (length (maps h))) as -> by (by injection En as <- _).
  eapply keeps_names_fresh; [exact En|].
  revert E. apply (local_to_bind (length (maps h))).
  - apply (local_to_bindArgs (mkScope (Some fsc) (length (maps h)))).
  - intros _. apply (local_ev _ (mkScope (Some fsc) (length (maps h)))).
Qed.

(** So does a block. *)
Lemma local_to_block (cur : loc) (exprs : list astNode) (sc : scope) :
  local_to cur (evalNode host ev (blockNode exprs) sc).
Proof.
  intros h r h' E. simpl in E. unfold bind in E.
  destruct (newMap h) as [r0 h1] eqn:En.
  assert (r0 = Ok (length (maps h))) as -> by (by injection En as <- _).
  eapply keeps_names_fresh; [exact En|].
  by apply (local_to_evalBlock _ (mkScope (Some sc) (length (maps h))) _
              _ _ _ E).
Qed.

Lemma local_to_evalNode (node : astNode) (sc : scope) :
  local_to (vars sc) (evalNode host ev node sc).
Proof.
  destruct node; try apply local_to_block; simpl;
    try apply local_to_ret; try apply local_to_throw.
  - case_match; apply local_to_ret.
  - apply local_to_bind; [apply local_to_evalElems|].
    intros els. apply local_to_ret.
  - apply local_to_bind; [apply local_to_evalEntries|].
    intros obj. apply local_to_ret.
  - apply local_to_bind; [apply local_to_newDefn|]. intros defn.
    apply local_to_bind; [|intros _; apply local_to_ret].
    case_match; [apply local_to_ret | apply local_to_mapAssign].
  - intros h r h' [= <- <-]. apply keeps_names_refl.
  - apply local_to_bind; [done|]. intros assignedValue.
    destruct node1; try apply local_to_throw.
    apply local_to_bind; [|intros _; apply local_to_ret].
    case_match; [apply local_to_mapAssign | apply local_to_scope_update].
  - apply local_to_bind; [done|]. intros l.
    apply local_to_bind; [done|]. intros r. apply local_to_lift.
  - apply local_to_bind; [done|]. intros maybeFn.
    apply local_to_bind; [apply local_to_evalElems|]. intros argv.
    destruct maybeFn; try apply local_to_fail.
    + apply local_to_callFn.
    + apply local_to_lift.
  - apply local_to_bind; [done|]. intros c. apply local_to_evalBranches.
Qed.

End LocalLoops.

Lemma local_to_evalExpr (host : Natives) (fuel : nat) (node : astNode)
    (sc : scope) :
  local_to (vars sc) (evalExpr host fuel node sc).
Proof.
  revert node sc. induction fuel as [|fuel IH]; intros node sc;
    [apply local_to_lift|].
  by apply local_to_evalNode.
Qed.

(** X8. No evaluation removes a map or a name from the store, and an
    evaluation adds names only to the map of the scope it runs in and to
    maps made while it runs: every other map that exists before has
    exactly the names it had (their values may change). Addresses of maps
    and of function nodes are never given back. *)
Theorem names_stay_local (host : Natives) (fuel : nat) (node : astNode)
    (sc : scope) (h : Store) (r : Res Value) (h' : Store) :
  evalExpr host fuel node sc h = (r, h') ->
  (forall l m, maps h !! l = Some m ->
     exists m', maps h' !! l = Some m' /\ dom m ⊆ dom m' /\
                (l <> vars sc -> dom m' = dom m)) /\
  (length (maps h) <= length (maps h'))%nat /\
  (defns h <= defns h')%nat.
Proof.
  intros E. split; [by apply (local_to_evalExpr _ _ _ _ _ _ _ E)|].
  destruct (growing_evalExpr _ _ _ _ _ _ _ E). by split.
Qed.

(** [n := 30] in a block under the scope that has [n]. *)
Lemma names_stay_local_witness :
  let outer := mkScope None 0 in
  let inner := mkScope (Some outer) 1 in
  let h := mkStore [{["n" := IntValue 10]}; ∅] 0 in
  let h' := mkStore [{["n" := IntValue 10]}; {["n" := IntValue 30]}] 0 in
  evalExpr plainHost 2 (assignmentNode true (var "n") (int 30)) inner h
    = (Ok (IntValue 30), h') /\
  (forall l m, maps h !! l = Some m ->
     exists m', maps h' !! l = Some m' /\ dom m ⊆ dom m' /\
                (l <> 1%nat -> dom m' = dom m)).
Proof.
  intros outer inner h h'. split; [reflexivity|].
  exact (proj1 (names_stay_local plainHost 2
                  (assignmentNode true (var "n") (int 30)) inner h
                  (Ok (IntValue 30)) h' eq_refl)).
Defined.

Lemma scope_get_defined_ext (sc : scope) (x : string) (h h' : Store) :
  (forall l, l ∈ chain sc ->
     is_Some (mapIndex l x h') <-> is_Some (mapIndex l x h)) ->
  (exists v, scope_get sc x h' = Ok v) <-> (exists v, scope_get sc x h = Ok v).
Proof.
  remember (chain sc) as ch eqn:Hch. revert sc Hch.
  induction ch as [|l0 ch IH]; intros sc Hch Hsame.
  - by destruct (chain_not_nil sc).
  - rewrite !scope_get_unfold, (vars_head _ _ _ (eq_sym Hch)).
    pose proof (Hsame l0 (list_elem_of_here _ _)) as Hl0.
    destruct (mapIndex l0 x h') as [v'|], (mapIndex l0 x h) as [v|].
    + split; eauto.
    + destruct (proj1 Hl0) as [? ?]; [eauto | done].
    + destruct (proj2 Hl0) as [? ?]; [eauto | done].
    + destruct (parent sc) as [p|] eqn:Hp.
      * rewrite (chain_parent _ _ Hp) in Hch. injection Hch as _ Hch.
        apply IH; [done|]. intros l Hl. apply Hsame.
        by apply list_elem_of_further.
      * split; intros [? ?]; done.
Qed.

(** X9. [evalProgram] runs the program as a block, in a scope of its own
    under the scope it is given: when it returns, however it returns, the
    names that can be read in the given scope are the names that could be
    read before. A top-level [:=] of a program defines nothing in the
    global scope of the context. *)
Theorem program_defines_no_global (host : Natives) (fuel : nat)
    (prog : list astNode) (sc : scope) (h : Store) (r : Res Value)
    (h' : Store) :
  evalProgram host fuel prog sc h = (r, h') ->
  (forall l, l ∈ chain sc -> (l < length (maps h))%nat) ->
  forall x,
    (exists v, scope_get sc x h' = Ok v) <->
    (exists v, scope_get sc x h = Ok v).
Proof.
  intros E Hall x. apply scope_get_defined_ext. intros l Hl.
  destruct (lookup_lt_is_Some_2 _ _ (Hall l Hl)) as [m Hm].
  assert (keeps_names (S l) h h') as Hk.
  { unfold evalProgram in E. destruct fuel as [|fuel].
    - injection E as <- <-. apply keeps_names_refl.
    - by apply (local_to_block host (evalExpr host fuel)
                  (local_to_evalExpr host fuel) (S l) prog sc _ _ _ E). }
  destruct (Hk l m Hm) as (m' & Hm' & _ & Heq).
  specialize (Heq ltac:(lia)).
  unfold mapIndex, loc in *. rewrite Hm, Hm'.
  rewrite <- !elem_of_dom. by rewrite Heq.
Qed.

(** After the program [n := 10] the name [n] is still undefined in the
    context. *)
Lemma program_defines_no_global_witness :
  let sc := NewContext.1 in
  let h := NewContext.2 in
  let h' := mkStore [∅; {["n" := IntValue 10]}] 0 in
  evalProgram plainHost 3 [assignmentNode true (var "n") (int 10)] sc h
    = (Ok (IntValue 10), h') /\
  (forall l, l ∈ chain sc -> (l < length (maps h))%nat) /\
  ((exists v, scope_get sc "n" h' = Ok v) <->
   (exists v, scope_get sc "n" h = Ok v)) /\
  scope_get sc "n" h' = Err (undefined "n").
Proof.
  intros sc h h'.
  assert (forall l, l ∈ chain sc -> (l < length (maps h))%nat) as Hall.
  { intros l ->%list_elem_of_singleton. simpl. lia. }
  split; [reflexivity|]. split; [exact Hall|]. split; [|reflexivity].
  exact (program_defines_no_global plainHost 3
           [assignmentNode true (var "n") (int 10)] sc h
           (Ok (IntValue 10)) h' eq_refl Hall "n").
Defined.

(** ** Sequences of expressions *)

Section Sequences.
Variable ev : astNode -> scope -> M Value.

Lemma evalElems_snoc_Ok (pre : list astNode) (n : astNode) (sc : scope)
    (h : Store) (vs : list Value) (h1 : Store) (v : Value) (h2 : Store) :
  evalElems ev pre sc h = (Ok vs, h1) -> ev n sc h1 = (Ok v, h2) ->
  evalElems ev (pre ++ [n]) sc h = (Ok (vs ++ [v])%list, h2).
Proof.
  revert h vs. induction pre as [|n0 pre IH]; intros h vs; simpl.
  - intros [= <- <-] E. by rewrite (bind_Ok _ _ _ _ _ E).
  - intros E0 En. apply bind_inv_Ok in E0 as (v0 & h0 & E0 & E1).
    apply bind_inv_Ok in E1 as (vs0 & h0' & E1 & [= <- <-]).
    rewrite (bind_Ok _ _ _ _ _ E0).
    by rewrite (bind_Ok _ _ _ _ _ (IH _ _ E1 En)).
Qed.

Lemma evalElems_abort (pre post : list astNode) (n : astNode) (sc : scope)
    (h : Store) (vs : list Value) (h1 : Store) (e : runtimeError)
    (h2 : Store) :
  evalElems ev pre sc h = (Ok vs, h1) -> ev n sc h1 = (Err e, h2) ->
  evalElems ev (pre ++ n :: post) sc h = (Err e, h2).
Proof.
  revert h vs. induction pre as [|n0 pre IH]; intros h vs; simpl.
  - intros [= <- <-] E. unfold bind. by rewrite E.
  - intros E0 En. apply bind_inv_Ok in E0 as (v0 & h0 & E0 & E1).
    apply bind_inv_Ok in E1 as (vs0 & h0' & E1 & [= <- <-]).
    rewrite (bind_Ok _ _ _ _ _ E0). unfold bind.
    by rewrite (IH _ _ E1 En).
Qed.

Lemma evalBlock_app (es es' : list astNode) (blockScope : scope)
    (returnVal : Value) (h : Store) :
  evalBlock ev (es ++ es') blockScope returnVal h
  = bind (evalBlock ev es blockScope returnVal)
         (fun v => evalBlock ev es' blockScope v) h.
Proof.
  revert returnVal h. induction es as [|e es IH]; intros returnVal h;
    [done|].
  simpl. unfold bind.
  destruct (ev e blockScope h) as [[v|err|p|] h1]; done.
Qed.

End Sequences.

Lemma listNode_inv (host : Natives) (fuel : nat) (elems : list astNode)
    (sc : scope) (h : Store) (v : Value) (h1 : Store) :
  evalExpr host fuel (listNode elems) sc h = (Ok v, h1) ->
  exists fuel' vs,
    fuel = S fuel' /\ v = ListValue vs /\
    evalElems (evalExpr host fuel') elems sc h = (Ok vs, h1).
Proof.
  destruct fuel as [|fuel]; [discriminate|]. simpl. intros E.
  apply bind_inv_Ok in E as (vs & h' & E & [= <- <-]). by exists fuel, vs.
Qed.

(** X10. A list literal evaluates its elements from left to right, each
    in the store left by the one before, into a list with one value for
    each element; the first element that gives an error ends the
    evaluation with that error, and the elements after it are not
    evaluated. *)
Theorem listNode_in_order (host : Natives) (fuel : nat)
    (pre : list astNode) (sc : scope) (h : Store) (vs : list Value)
    (h1 : Store) :
  evalExpr host (S fuel) (listNode pre) sc h = (Ok (ListValue vs), h1) ->
  length vs = length pre /\
  (forall n v h2,
     evalExpr host fuel n sc h1 = (Ok v, h2) ->
     evalExpr host (S fuel) (listNode (pre ++ [n])) sc h
     = (Ok (ListValue (vs ++ [v])), h2)) /\
  (forall n post e h2,
     evalExpr host fuel n sc h1 = (Err e, h2) ->
     evalExpr host (S fuel) (listNode (pre ++ n :: post)) sc h
     = (Err e, h2)).
Proof.
  intros E. apply listNode_inv in E as (fuel' & vs' & [= <-] & [= <-] & E).
  split; [by eapply evalElems_length|]. split.
  - intros n v h2 En. simpl. unfold bind at 1.
    by rewrite (evalElems_snoc_Ok _ _ _ _ _ _ _ _ _ E En).
  - intros n post e h2 En. simpl. unfold bind at 1.
    by rewrite (evalElems_abort _ _ _ _ _ _ _ _ _ _ E En).
Qed.

(** [[1, x, 2 + 3]] with [x] undefined: the error of [x], and the third
    element, which would panic, is not reached. *)
Lemma listNode_in_order_witness :
  let sc := mkScope None 0 in
  let h := mkStore [∅] 0 in
  evalExpr plainHost 2 (listNode [int 1]) sc h
    = (Ok (ListValue [IntValue 1]), h) /\
  evalExpr plainHost 1 (var "x") sc h = (Err (undefined "x"), h) /\
  evalExpr plainHost 2
    (listNode ([int 1] ++ var "x" :: [binaryNode "+" (int 2) (int 3)])) sc h
  = (Err (undefined "x"), h).
Proof.
  intros sc h. split; [reflexivity|]. split; [reflexivity|].
  exact (proj2 (proj2 (listNode_in_order plainHost 1 [int 1] sc h
                         [IntValue 1] h eq_refl))
           (var "x") [binaryNode "+" (int 2) (int 3)] (undefined "x") h
           eq_refl).
Defined.

Lemma blockNode_inv (host : Natives) (fuel : nat) (exprs : list astNode)
    (sc : scope) (h : Store) (r : Res Value) (h1 : Store) :
  evalExpr host (S fuel) (blockNode exprs) sc h = (r, h1) ->
  evalBlock (evalExpr host fuel) exprs
    (mkScope (Some sc) (length (maps h))) null
    (mkStore (maps h ++ [∅]) (defns h)) = (r, h1).
Proof. done. Qed.

(** X11. A block evaluates its expressions in order in one new scope whose
    parent is the scope of the block; its value is the value of the last
    expression, null when it has none; the first expression that gives
    an error ends the block with that error. *)
Theorem blockNode_in_order (host : Natives) (fuel : nat) (sc : scope)
    (h : Store) :
  evalExpr host (S fuel) (blockNode []) sc h
  = (Ok null, mkStore (maps h ++ [∅]) (defns h)) /\
  (forall es v0 h1,
     evalExpr host (S fuel) (blockNode es) sc h = (Ok v0, h1) ->
     (forall e,
        evalExpr host (S fuel) (blockNode (es ++ [e])) sc h
        = evalExpr host fuel e (mkScope (Some sc) (length (maps h))) h1) /\
     (forall e rest err h2,
        evalExpr host fuel e (mkScope (Some sc) (length (maps h))) h1
          = (Err err, h2) ->
        evalExpr host (S fuel) (blockNode (es ++ e :: rest)) sc h
        = (Err err, h2))).
Proof.
  split; [done|]. intros es v0 h1 E%blockNode_inv. split.
  - intros e. simpl. unfold bind at 1. simpl.
    rewrite evalBlock_app. rewrite (bind_Ok _ _ _ _ _ E). simpl.
    unfold bind. by destruct (evalExpr host fuel e _ h1) as [[]].
  - intros e rest err h2 Ee. simpl. unfold bind at 1. simpl.
    rewrite evalBlock_app. rewrite (bind_Ok _ _ _ _ _ E). simpl.
    unfold bind. by rewrite Ee.
Qed.

(** X12. A function literal with a name binds the name, in the scope it
    is evaluated in, to the function value it returns, which holds that
    same scope: the body can call the function by its name. A literal
    with no name changes no map. *)
Theorem fnNode_binds_its_name (host : Natives) (fuel : nat) (n : fnNode)
    (sc : scope) (h : Store) (f : Value) (h' : Store) :
  evalExpr host fuel (fnNodeE n) sc h = (Ok f, h') ->
  f = FnValue (mkPtr (defns h) n) sc /\
  (fn_name n <> "" -> scope_get sc (fn_name n) h' = Ok f) /\
  (fn_name n = "" -> maps h' = maps h).
Proof.
  intros E. destruct (fnNodeE_value _ _ _ _ _ _ _ E) as [-> _].
  split; [done|]. destruct fuel as [|fuel]; [discriminate|].
  simpl in E. unfold bind at 1 in E. simpl in E.
  case_bool_decide as Hname.
  - split; [done|]. intros _. by injection E as <-.
  - split; [|done]. intros _.
    apply bind_inv_Ok in E as ([] & h1 & E & [= <-]).
    rewrite scope_get_unfold.
    rewrite (mapIndex_mapAssign _ _ _ _ _ _ (vars sc) (fn_name n) E).
    rewrite bool_decide_eq_true_2; [done|]. repeat split.
    unfold scope_put, mapAssign in E. simpl in *.
    destruct (maps h !! vars sc); [eauto | discriminate].
Qed.

(** [fn f() f] evaluated and then called gives the function itself. *)
Lemma fnNode_binds_its_name_witness :
  let sc := mkScope None 0 in
  let h := mkStore [∅] 0 in
  let n := mkFnNode "f" [] (var "f") in
  let f := FnValue (mkPtr 0 n) sc in
  let h' := mkStore [{["f" := f]}] 1 in
  evalExpr plainHost 1 (fnNodeE n) sc h = (Ok f, h') /\
  fn_name n <> "" /\
  scope_get sc "f" h' = Ok f /\
  (evalExpr plainHost 3 (fnCallNode (fnNodeE n) []) sc h).1 = Ok f.
Proof.
  intros sc h n f h'. split; [reflexivity|]. split; [discriminate|].
  split; [|reflexivity].
  destruct (fnNode_binds_its_name plainHost 1 n sc h f h' eq_refl)
    as (_ & Hget & _).
  apply Hget. discriminate.
Defined.

(** ** Calls that bind their parameters *)

Lemma mapIndex_newMap (h : Store) (l : loc) (h1 : Store) (l' : loc)
    (x : string) :
  newMap h = (Ok l, h1) -> mapIndex l' x h1 = mapIndex l' x h.
Proof.
  intros [= <- <-]. unfold mapIndex. simpl.
  destruct (decide (l' < length (maps h))%nat) as [Hlt|Hge].
  - by rewrite lookup_app_l.
  - rewrite (lookup_ge_None_2 (maps h)) by lia.
    destruct (decide (l' = length (maps h))) as [->|Hne].
    + by rewrite lookup_app_r, Nat.sub_diag.
    + rewrite lookup_ge_None_2; [done|]. rewrite length_app. simpl. lia.
Qed.

Lemma bindArgs_spec (fnScope : scope) (args : list Value)
    (names : list string) (i : nat) (h : Store) :
  is_Some (maps h !! vars fnScope) ->
  (i + length names <= length args)%nat ->
  exists h',
    bindArgs fnScope names i args h = (Ok tt, h') /\
    defns h' = defns h /\
    is_Some (maps h' !! vars fnScope) /\
    (forall l' x, l' <> vars fnScope \/ x ∉ names ->
       mapIndex l' x h' = mapIndex l' x h) /\
    (NoDup names -> forall j x a,
       names !! j = Some x -> args !! (i + j)%nat = Some a ->
       mapIndex (vars fnScope) x h' = Some a).
Proof.
  revert i h. induction names as [|x0 names IH]; intros i h Hl Hlen.
  - exists h. repeat split; done.
  - simpl in Hlen.
    destruct (lookup_lt_is_Some_2 args i) as [a0 Ha0]; [lia|].
    destruct Hl as [m Hm].
    pose proof (scope_put_local fnScope x0 a0 h m Hm) as Eput.
    set (h1 := mkStore (<[vars fnScope := <[x0 := a0]> m]> (maps h))
                 (defns h)) in *.
    assert (is_Some (maps h1 !! vars fnScope)) as Hl1.
    { simpl. rewrite list_lookup_insert_eq by (by eapply lookup_lt_Some).
      eauto. }
    destruct (IH (S i) h1 Hl1 ltac:(lia)) as (h' & E & Hd & Hl' & Hoth & Hnd).
    exists h'. simpl. rewrite Ha0. rewrite (bind_Ok _ _ _ _ _ Eput).
    split; [done|]. split; [by rewrite Hd|]. split; [done|]. split.
    + intros l' x Hx. rewrite Hoth.
      * rewrite (mapIndex_mapAssign _ _ _ _ _ _ l' x Eput).
        rewrite bool_decide_eq_false_2; [done|].
        intros (-> & -> & _). destruct Hx as [|Hx]; [done|].
        apply Hx. apply list_elem_of_here.
      * destruct Hx as [|Hx]; [by left|]. right. intros Hin. apply Hx.
        by apply list_elem_of_further.
    + intros [Hni Hnd']%NoDup_cons j x a Hj Ha. destruct j as [|j].
      * injection Hj as <-. rewrite Nat.add_0_r, Ha0 in Ha.
        injection Ha as <-. rewrite Hoth by (by right).
        rewrite (mapIndex_mapAssign _ _ _ _ _ _ _ _ Eput).
        rewrite bool_decide_eq_true_2; [done|]. rewrite Hm. eauto.
      * apply (Hnd Hnd' j x a); [done|].
        by replace (S i + j)%nat with (i + S j)%nat by lia.
Qed.

(** X13. A call of a function value with at least as many arguments as
    parameters evaluates the body in a new scope whose parent is the scope
    held by the function value (not the scope of the call): there each
    parameter reads the argument at its position (for parameters with
    different names), and every name that is not a parameter reads what
    it reads in the scope held by the function. *)
Theorem call_binds_parameters (host : Natives) (fuel : nat) (fn : astNode)
    (args : list astNode) (sc : scope) (h : Store) (defn : defnPtr)
    (fsc : scope) (h1 : Store) (argv : list Value) (h2 : Store) :
  evalExpr host fuel fn sc h = (Ok (FnValue defn fsc), h1) ->
  evalElems (evalExpr host fuel) args sc h1 = (Ok argv, h2) ->
  (length (fn_args (target defn)) <= length args)%nat ->
  let fnScope := mkScope (Some fsc) (length (maps h2)) in
  exists hb,
    evalExpr host (S fuel) (fnCallNode fn args) sc h
    = evalExpr host fuel (fn_body (target defn)) fnScope hb /\
    (NoDup (fn_args (target defn)) -> forall j x a,
       fn_args (target defn) !! j = Some x -> argv !! j = Some a ->
       scope_get fnScope x hb = Ok a) /\
    (forall y, y ∉ fn_args (target defn) ->
       scope_get fnScope y hb = scope_get fsc y h2).
Proof.
  intros Ef Ea Hlen fnScope.
  pose proof (evalElems_length _ _ _ _ _ _ Ea) as Hargv.
  set (names := fn_args (target defn)) in *.
  set (hn := mkStore (maps h2 ++ [∅]) (defns h2)).
  assert (newMap h2 = (Ok (length (maps h2)), hn)) as En by done.
  destruct (bindArgs_spec fnScope (take (length names) argv) names 0 hn)
    as (hb & Eb & _ & _ & Hoth & Hnd).
  { simpl. rewrite lookup_app_r, Nat.sub_diag by done. eauto. }
  { rewrite length_take. lia. }
  exists hb. split; [|split].
  - simpl. rewrite (bind_Ok _ _ _ _ _ Ef), (bind_Ok _ _ _ _ _ Ea).
    unfold callFn. fold names.
    destruct (Nat.ltb_spec (length argv) (length names)); [lia|].
    rewrite (bind_Ok _ _ _ _ _ En). fold fnScope.
    by rewrite (bind_Ok _ _ _ _ _ Eb).
  - intros Hnodup j x a Hj Ha. rewrite scope_get_unfold.
    rewrite (Hnd Hnodup j x a); [done|done|].
    simpl. rewrite lookup_take_lt; [done|]. by eapply lookup_lt_Some.
  - intros y Hy. rewrite scope_get_unfold. simpl.
    rewrite (Hoth (length (maps h2)) y) by (by right).
    rewrite (mapIndex_newMap _ _ _ _ _ En).
    unfold mapIndex at 1. rewrite lookup_ge_None_2 by done.
    apply scope_get_ext. intros l _.
    rewrite (Hoth l y) by (by right). by apply (mapIndex_newMap _ _ _ _ _ En).
Qed.

(** [(fn(a, b) b)(1, 2, 3)] is 2. *)
Lemma call_binds_parameters_witness :
  let sc := mkScope None 0 in
  let h := mkStore [∅] 0 in
  let n := mkFnNode "" ["a"; "b"] (var "b") in
  let defn := mkPtr 0 n in
  let h1 := mkStore [∅] 1 in
  let argv := [IntValue 1; IntValue 2; IntValue 3] in
  let fnScope := mkScope (Some sc) 1 in
  evalExpr plainHost 1 (fnNodeE n) sc h = (Ok (FnValue defn sc), h1) /\
  evalElems (evalExpr plainHost 1) [int 1; int 2; int 3] sc h1
    = (Ok argv, h1) /\
  (length (fn_args (target defn)) <= length [int 1; int 2; int 3])%nat /\
  exists hb,
    evalExpr plainHost 2 (fnCallNode (fnNodeE n) [int 1; int 2; int 3]) sc h
    = evalExpr plainHost 1 (var "b") fnScope hb /\
    scope_get fnScope "b" hb = Ok (IntValue 2).
Proof.
  intros sc h n defn h1 argv fnScope.
  split; [reflexivity|]. split; [reflexivity|].
  assert (length (fn_args (target defn))
          <= length [int 1; int 2; int 3])%nat as Hlen by (simpl; lia).
  split; [exact Hlen|].
  destruct (call_binds_parameters plainHost 1 (fnNodeE n)
              [int 1; int 2; int 3] sc h defn sc h1 argv h1
              eq_refl eq_refl Hlen) as (hb & E & Hpar & _).
  exists hb. split; [exact E|].
  assert (NoDup (fn_args (target defn))) as Hnd.
  { simpl. apply NoDup_cons. split; [|apply NoDup_singleton].
    intros Hin%list_elem_of_singleton. discriminate. }
  apply (Hpar Hnd 1%nat "b" (IntValue 2)); reflexivity.
Defined.

(** X14. A call whose callee evaluates to a value that is neither a
    function nor a builtin is a runtime error that names the value; it is
    raised after the arguments have been evaluated. *)
Theorem call_of_non_function (host : Natives) (fuel : nat) (fn : astNode)
    (args : list astNode) (sc : scope) (h : Store) (f : Value) (h1 : Store)
    (argv : list Value) (h2 : Store) :
  evalExpr host fuel fn sc h = (Ok f, h1) ->
  evalElems (evalExpr host fuel) args sc h1 = (Ok argv, h2) ->
  (forall defn fsc, f <> FnValue defn fsc) ->
  (forall id, f <> BuiltinFnValue id) ->
  evalExpr host (S fuel) (fnCallNode fn args) sc h
  = (Err (mkRuntimeError
            (Value_String host f
               +:+ " is not a function and cannot be called")), h2).
Proof.
  intros Ef Ea Hfn Hbi. simpl.
  rewrite (bind_Ok _ _ _ _ _ Ef), (bind_Ok _ _ _ _ _ Ea).
  destruct f; try done.
  - by destruct (Hfn defn sc0).
  - by destruct (Hbi id).
Qed.

(** [1(2)] *)
Lemma call_of_non_function_witness :
  let sc := mkScope None 0 in
  let h := mkStore [∅] 0 in
  evalExpr plainHost 1 (int 1) sc h = (Ok (IntValue 1), h) /\
  evalElems (evalExpr plainHost 1) [int 2] sc h = (Ok [IntValue 2], h) /\
  evalExpr plainHost 2 (fnCallNode (int 1) [int 2]) sc h
  = (Err (mkRuntimeError "1 is not a function and cannot be called"), h).
Proof.
  intros sc h. split; [reflexivity|]. split; [reflexivity|].
  apply (call_of_non_function plainHost 1 (int 1) [int 2] sc h (IntValue 1)
           h [IntValue 2] h eq_refl eq_refl); discriminate.
Defined.

(** X15. An assignment whose left-hand side is not a name never returns a
    value: once the right-hand side is evaluated it panics, and the store
    is the one the right-hand side left (nothing is bound). *)
Theorem assignment_needs_a_name (host : Natives) (fuel : nat)
    (isLocal : bool) (nleft nright : astNode) (sc : scope) (h : Store)
    (v : Value) (h1 : Store) :
  (forall payload, nleft <> identifierNode payload) ->
  evalExpr host fuel nright sc h = (Ok v, h1) ->
  exists msg,
    evalExpr host (S fuel) (assignmentNode isLocal nleft nright) sc h
    = (Panic (GoPanic msg), h1).
Proof.
  intros Hni E. simpl. rewrite (bind_Ok _ _ _ _ _ E).
  destruct nleft; try (eexists; reflexivity). by destruct (Hni payload).
Qed.

(** [{a: b} := 1] *)
Lemma assignment_needs_a_name_witness :
  let sc := mkScope None 0 in
  let h := mkStore [∅] 0 in
  objectNode [(var "a", var "b")] <> var "a" /\
  evalExpr plainHost 1 (int 1) sc h = (Ok (IntValue 1), h) /\
  exists msg,
    evalExpr plainHost 2
      (assignmentNode true (objectNode [(var "a", var "b")]) (int 1)) sc h
    = (Panic (GoPanic msg), h).
Proof.
  intros sc h. split; [discriminate|]. split; [reflexivity|].
  apply (assignment_needs_a_name plainHost 1 true
           (objectNode [(var "a", var "b")]) (int 1) sc h (IntValue 1) h);
    [discriminate | reflexivity].
Defined.

(** ** Reads of properties *)

(** X16. A read of a string or a list at an integer index inside
    [0, length) gives the byte at the index, as a string of one byte, or
    the element; at an index below zero or above the length it gives null;
    at an index that is not an integer it is a runtime error that names
    the index. *)
Theorem index_read_bounds (host : Natives) :
  (forall s i, (0 <= i < Z.of_nat (String.length s))%Z ->
     exists b, String.get (Z.to_nat i) s = Some b /\
       propertyAccess host (StringValue s) (IntValue i)
       = Ok (StringValue (String b EmptyString))) /\
  (forall l i, (0 <= i < Z.of_nat (length l))%Z ->
     exists el, l !! Z.to_nat i = Some el /\
       propertyAccess host (ListValue l) (IntValue i) = Ok el) /\
  (forall s i, (i < 0 \/ Z.of_nat (String.length s) < i)%Z ->
     propertyAccess host (StringValue s) (IntValue i) = Ok null) /\
  (forall l i, (i < 0 \/ Z.of_nat (length l) < i)%Z ->
     propertyAccess host (ListValue l) (IntValue i) = Ok null) /\
  (forall r, (forall i, r <> IntValue i) ->
     (forall s, propertyAccess host (StringValue s) r
        = Err (mkRuntimeError
                 ("Cannot index into string with non-integer index "
                    +:+ Value_String host r))) /\
     (forall l, propertyAccess host (ListValue l) r
        = Err (mkRuntimeError
                 ("Cannot index into list with non-integer index "
                    +:+ Value_String host r)))).
Proof.
  split; [|split; [|split; [|split]]].
  - apply string_index_inside.
  - apply list_index_inside.
  - intros s i. apply (proj1 (index_outside host i)).
  - intros l i. apply (proj2 (index_outside host i)).
  - apply index_not_int.
Qed.

(** X17. A read of an object never fails, whatever the key value is: it
    gives the value stored under the display form of the key, and null
    when there is none. A read of a value that is not a string, a list or
    an object is a runtime error that names the value, whatever the key. *)
Theorem object_read_total (host : Natives) :
  (forall o r,
     propertyAccess host (ObjectValue o) r
     = Ok (default null (o !! Value_String host r))) /\
  (forall base r,
     (forall s, base <> StringValue s) -> (forall l, base <> ListValue l) ->
     (forall o, base <> ObjectValue o) ->
     propertyAccess host base r
     = Err (mkRuntimeError
              ("Expected string, list, or object in left-hand side of property access, got "
                 +:+ Value_String host base))).
Proof.
  split.
  - intros o r. unfold propertyAccess. by destruct (o !! _).
  - intros base r Hs Hl Ho. destruct base; try reflexivity.
    + by destruct (Hs s).
    + by destruct (Hl l).
    + by destruct (Ho m).
Qed.

(** ** Keys that meet *)

Lemma two_entries_one_key (host : Natives) (fuel : nat)
    (k1 a k2 b : astNode) (sc : scope) (h : Store) (o : gmap string Value)
    (h' : Store) (k : string) :
  evalExpr host fuel (objectNode [(k1, a); (k2, b)]) sc h
    = (Ok (ObjectValue o), h') ->
  literalKey host k1 = Some k -> literalKey host k2 = Some k ->
  exists v, o = {[k := v]}.
Proof.
  destruct fuel as [|fuel]; [discriminate|].
  intros E%objectNode_inv Hk1 Hk2. simpl in E.
  apply bind_inv_Ok in E as (ks1 & h1 & Ek1 & E).
  apply bind_inv_Ok in E as (v1 & h2 & Ev1 & E).
  apply bind_inv_Ok in E as (ks2 & h3 & Ek2 & E).
  apply bind_inv_Ok in E as (v2 & h4 & Ev2 & [= <- <-]).
  rewrite (entryKey_literal _ _ _ _ _ _ _ _ Ek1 Hk1).
  rewrite (entryKey_literal _ _ _ _ _ _ _ _ Ek2 Hk2).
  exists v2. by rewrite insert_insert_eq.
Qed.

(** X18. The key of an entry is a string whatever the type of the
    evaluated key: different integers give different keys, but an integer
    key and the string key of its decimal digits are the same key, and so
    are a bare name and the string of that name; a literal with two such
    entries gives an object with one entry. *)
Theorem object_keys_meet (host : Natives) :
  (forall z1 z2,
     keyString host (IntValue z1) = keyString host (IntValue z2) ->
     z1 = z2) /\
  (forall z,
     keyString host (StringValue (pretty z)) = keyString host (IntValue z)) /\
  (forall fuel z f a b sc h o h',
     evalExpr host fuel
       (objectNode [(numberNode true z f, a); (stringNode (pretty z), b)])
       sc h = (Ok (ObjectValue o), h') ->
     size o = 1%nat) /\
  (forall fuel name a b sc h o h',
     evalExpr host fuel
       (objectNode [(identifierNode name, a); (stringNode name, b)])
       sc h = (Ok (ObjectValue o), h') ->
     size o = 1%nat).
Proof.
  split; [|split; [|split]].
  - intros z1 z2 [= E]. by apply (inj pretty) in E.
  - done.
  - intros * E.
    destruct (two_entries_one_key _ _ _ _ _ _ _ _ _ _ (pretty z) E
                eq_refl eq_refl) as [v ->].
    apply map_size_singleton.
  - intros * E.
    destruct (two_entries_one_key _ _ _ _ _ _ _ _ _ _ name E
                eq_refl eq_refl) as [v ->].
    apply map_size_singleton.
Qed.

(** ** Values equal to themselves *)

Section Reflexivity.
Variable host : Natives.

Lemma depth_elem (l : list Value) (el : Value) :
  el ∈ l -> (depth el < depth (ListValue l))%nat.
Proof.
  simpl. induction l as [|x l IH]; [by intros ?%elem_of_nil|].
  intros [->|Hin]%elem_of_cons; simpl; [lia|]. specialize (IH Hin). lia.
Qed.

Lemma plain_elem (l : list Value) (el : Value) :
  plain (ListValue l) -> el ∈ l -> plain el.
Proof.
  simpl. induction l as [|x l IH]; [by intros _ ?%elem_of_nil|].
  simpl. intros [Hx Hl] [->|Hin]%elem_of_cons; [done | by apply IH].
Qed.

Lemma depth_entry (m : gmap string Value) (key : string) (val : Value) :
  m !! key = Some val -> (depth val < depth (ObjectValue m))%nat.
Proof.
  simpl. revert key val.
  apply (map_fold_weak_ind
    (fun (r : nat) (m : gmap string Value) =>
       forall key val, m !! key = Some val -> (depth val < S r)%nat)).
  - intros key val Hk. by rewrite lookup_empty in Hk.
  - intros i x m' r Hi IH key val Hk.
    destruct (decide (i = key)) as [->|Hne].
    + rewrite lookup_insert_eq in Hk. injection Hk as <-. lia.
    + rewrite lookup_insert_ne in Hk by done. specialize (IH _ _ Hk). lia.
Qed.

Lemma plain_entry (m : gmap string Value) (key : string) (val : Value) :
  plain (ObjectValue m) -> m !! key = Some val -> plain val.
Proof.
  simpl. revert key val.
  apply (map_fold_weak_ind
    (fun (r : Prop) (m : gmap string Value) =>
       forall key val, r -> m !! key = Some val -> plain val)).
  - intros key val _ Hk. by rewrite lookup_empty in Hk.
  - intros i x m' r Hi IH key val [Hx Hr] Hk.
    destruct (decide (i = key)) as [->|Hne].
    + rewrite lookup_insert_eq in Hk. by injection Hk as <-.
    + rewrite lookup_insert_ne in Hk by done. by eapply IH.
Qed.

Lemma Eq_refl_depth (n : nat) (v : Value) :
  (depth v < n)%nat -> plain v -> Value_Eq host v v = true.
Proof.
  revert v. induction n as [|n IH]; intros v Hd Hp; [lia|].
  destruct v; try done.
  - simpl. by apply bool_decide_eq_true.
  - simpl. apply Z.eqb_refl.
  - simpl. by destruct b.
  - simpl. by apply bool_decide_eq_true.
  - cbn [Value_Eq]. rewrite Nat.eqb_refl. cbn [negb].
    apply list_loop_Forall2; [done|].
    apply Forall_Forall2_diag, Forall_forall. intros el Hel. apply IH.
    + pose proof (depth_elem l el Hel). lia.
    + by eapply plain_elem.
  - cbn [Value_Eq]. rewrite Nat.eqb_refl. cbn [negb].
    apply object_loop_spec. intros key val Hk. exists val. split; [done|].
    apply IH.
    + pose proof (depth_entry m key val Hk). lia.
    + by eapply plain_entry.
  - simpl. unfold FnValue_Eq. apply Nat.eqb_refl.
Qed.

End Reflexivity.

(** X19. A value is equal to itself when no float in it is a NaN and
    there is no builtin in it (lists and objects are compared through
    all their levels); a float that differs from itself makes the value
    that holds it differ from itself. *)
Theorem Eq_reflexive (host : Natives) :
  (forall v, plain v -> Value_Eq host v v = true) /\
  (forall f, PrimFloat.eqb f f = false ->
     Value_Eq host (FloatValue f) (FloatValue f) = false /\
     Value_Eq host (ListValue [FloatValue f]) (ListValue [FloatValue f])
     = false).
Proof.
  split.
  - intros v Hp. apply (Eq_refl_depth host (S (depth v))); [lia | done].
  - intros f Hf. simpl. by rewrite Hf.
Qed.

(** X20. In a match expression an error of the subject, or of a pattern
    that is reached, is the outcome of the whole expression: no later
    branch is tried. *)
Theorem ifExpr_errors (host : Natives) (fuel : nat) (cond : astNode)
    (sc : scope) (h : Store) :
  (forall e h0 branches,
     evalExpr host fuel cond sc h = (Err e, h0) ->
     evalExpr host (S fuel) (ifExprNode cond branches) sc h = (Err e, h0)) /\
  (forall c h0 pre target body post h1 e h2,
     evalExpr host fuel cond sc h = (Ok c, h0) ->
     passBranches host (evalExpr host fuel) c pre sc h0 = Some h1 ->
     evalExpr host fuel target sc h1 = (Err e, h2) ->
     evalExpr host (S fuel)
       (ifExprNode cond (pre ++ (target, body) :: post)) sc h
     = (Err e, h2)).
Proof.
  split.
  - intros e h0 branches E. simpl. unfold bind. by rewrite E.
  - intros * Ec Hpre Et. simpl. rewrite (bind_Ok _ _ _ _ _ Ec).
    rewrite (evalBranches_pass _ _ _ _ _ _ _ _ Hpre). simpl.
    unfold bind. by rewrite Et.
Qed.

(** X21. A call of a builtin hands all the evaluated arguments, in order
    and however many the call has, to the native function, and the
    outcome of the native function is the outcome of the call; no scope is
    made and the store is the one the arguments left. *)
Theorem call_of_builtin (host : Natives) (fuel : nat) (fn : astNode)
    (args : list astNode) (sc : scope) (h : Store) (id : string)
    (h1 : Store) (argv : list Value) (h2 : Store) :
  evalExpr host fuel fn sc h = (Ok (BuiltinFnValue id), h1) ->
  evalElems (evalExpr host fuel) args sc h1 = (Ok argv, h2) ->
  evalExpr host (S fuel) (fnCallNode fn args) sc h
  = (builtinCall host id argv, h2) /\
  length argv = length args.
Proof.
  intros Ef Ea. split; [|by eapply evalElems_length].
  simpl. by rewrite (bind_Ok _ _ _ _ _ Ef), (bind_Ok _ _ _ _ _ Ea).
Qed.

(** A context whose global scope has the builtin [len] under its name. *)
Lemma call_of_builtin_witness :
  let host := mkNatives (fun _ => "0.5") (fun _ => "fn") (fun id => id)
                (fun _ _ => false)
                (fun _ argv => Ok (IntValue (Z.of_nat (length argv)))) in
  let sc := mkScope None 0 in
  let h := mkStore [{["len" := BuiltinFnValue "len"]}] 0 in
  evalExpr host 1 (var "len") sc h = (Ok (BuiltinFnValue "len"), h) /\
  evalElems (evalExpr host 1) [int 7; int 8; int 9] sc h
    = (Ok [IntValue 7; IntValue 8; IntValue 9], h) /\
  evalExpr host 2 (fnCallNode (var "len") [int 7; int 8; int 9]) sc h
  = (Ok (IntValue 3), h).
Proof.
  intros host sc h. split; [reflexivity|]. split; [reflexivity|].
  exact (proj1 (call_of_builtin host 1 (var "len") [int 7; int 8; int 9]
                  sc h "len" h [IntValue 7; IntValue 8; IntValue 9] h
                  eq_refl eq_refl)).
Defined.

(** X22. A scope whose maps exist and are distinct stays such a scope
    through every evaluation, and the scope that a block or a call then
    builds on it, with a new map in front, is such a scope too: the map
    of a scope is never the map of one of its ancestors. *)
Theorem scopes_stay_ok (host : Natives) (fuel : nat) (node : astNode)
    (sc : scope) (h : Store) (r : Res Value) (h' : Store) :
  evalExpr host fuel node sc h = (r, h') ->
  forall sc', scope_ok h sc' ->
    scope_ok h' sc' /\
    scope_ok (mkStore (maps h' ++ [∅]) (defns h'))
      (mkScope (Some sc') (length (maps h'))).
Proof.
  intros E sc' Hok.
  assert (scope_ok h' sc') as Hok'.
  { eapply scope_ok_grows; [|done]. by eapply growing_evalExpr. }
  split; [done|]. by apply (scope_ok_child h' sc' (length (maps h')) _ Hok').
Qed.

Lemma scopes_stay_ok_witness :
  let sc := NewContext.1 in
  let h := NewContext.2 in
  let h' := mkStore [∅; {["n" := IntValue 10]}] 0 in
  evalExpr plainHost 3 (blockNode [assignmentNode true (var "n") (int 10)])
    sc h = (Ok (IntValue 10), h') /\
  scope_ok h sc /\
  scope_ok h' sc /\
  scope_ok (mkStore (maps h' ++ [∅]) (defns h')) (mkScope (Some sc) 2).
Proof.
  intros sc h h'. split; [reflexivity|].
  split; [exact scope_ok_NewContext|].
  exact (scopes_stay_ok plainHost 3
           (blockNode [assignmentNode true (var "n") (int 10)]) sc h
           (Ok (IntValue 10)) h' eq_refl sc scope_ok_NewContext).
Defined.

(** ** Symmetry of equality *)

Lemma SFcompare_antisym (x y : SpecFloat.spec_float) :
  SpecFloat.SFcompare y x = option_map CompOpp (SpecFloat.SFcompare x y).
Proof.
  destruct x as [sx|sx| |sx mx ex], y as [sy|sy| |sy my ey]; simpl;
    try done; try (by destruct sx); try (by destruct sy);
    try (by destruct sx, sy).
  destruct sx, sy; simpl; try done.
  - rewrite (Z.compare_antisym ey ex). destruct (ey ?= ex)%Z; simpl; try done.
    f_equal. rewrite (Pos.compare_cont_antisym mx my Eq). simpl.
    by rewrite ?CompOpp_involutive.
  - rewrite (Z.compare_antisym ey ex). destruct (ey ?= ex)%Z; simpl; try done.
    f_equal. rewrite (Pos.compare_cont_antisym mx my Eq). simpl.
    by rewrite ?CompOpp_involutive.
Qed.

Lemma float_eqb_sym (f g : float) : PrimFloat.eqb f g = PrimFloat.eqb g f.
Proof.
  rewrite !FloatAxioms.eqb_spec. unfold SpecFloat.SFeqb.
  rewrite (SFcompare_antisym (Prim2SF f) (Prim2SF g)).
  by destruct (SpecFloat.SFcompare (Prim2SF f) (Prim2SF g)) as [[]|].
Qed.

Section Symmetry.
Variable host : Natives.

Lemma list_Eq_iff (l w : list Value) :
  Value_Eq host (ListValue l) (ListValue w) = true <->
  length l = length w /\
  Forall2 (fun el wi => Value_Eq host el wi = true) l w.
Proof.
  cbn [Value_Eq].
  destruct (Nat.eqb_spec (length l) (length w)) as [Hlen|Hlen]; cbn [negb].
  - rewrite (list_loop_Forall2 host l w Hlen). tauto.
  - split; [done | by intros []].
Qed.

Lemma object_Eq_iff (m w : gmap string Value) :
  Value_Eq host (ObjectValue m) (ObjectValue w) = true <->
  size m = size w /\
  forall key val, m !! key = Some val ->
    exists wVal, w !! key = Some wVal /\ Value_Eq host val wVal = true.
Proof.
  cbn [Value_Eq].
  destruct (Nat.eqb_spec (size m) (size w)) as [Hlen|Hlen]; cbn [negb].
  - rewrite (object_loop_spec host w m). tauto.
  - split; [done | by intros []].
Qed.

Lemma definite_elem (l : list Value) (el : Value) :
  definite (ListValue l) -> el ∈ l -> definite el.
Proof.
  simpl. induction l as [|x l IH]; [by intros _ ?%elem_of_nil|].
  simpl. intros [Hx Hl] [->|Hin]%elem_of_cons; [done | by apply IH].
Qed.

Lemma definite_entry (m : gmap string Value) (key : string) (val : Value) :
  definite (ObjectValue m) -> m !! key = Some val -> definite val.
Proof.
  simpl. revert key val.
  apply (map_fold_weak_ind
    (fun (r : Prop) (m : gmap string Value) =>
       forall key val, r -> m !! key = Some val -> definite val)).
  - intros key val _ Hk. by rewrite lookup_empty in Hk.
  - intros i x m' r Hi IH key val [Hx Hr] Hk.
    destruct (decide (i = key)) as [->|Hne].
    + rewrite lookup_insert_eq in Hk. by injection Hk as <-.
    + rewrite lookup_insert_ne in Hk by done. by eapply IH.
Qed.

Lemma Forall2_swap (R R' : Value -> Value -> Prop) (l w : list Value) :
  Forall2 R l w ->
  (forall x y, x ∈ l -> y ∈ w -> R x y -> R' y x) ->
  Forall2 R' w l.
Proof.
  induction 1 as [|x y l w Hxy Hlw IH]; intros Himp; [constructor|].
  constructor.
  - apply Himp; [apply list_elem_of_here.. | done].
  - apply IH. intros x' y' Hx' Hy'.
    apply Himp; by apply list_elem_of_further.
Qed.

(** The loop of [ObjectValue.Eq] looks at the keys of the receiver only;
    with equal numbers of entries the keys of the two objects are the
    same. *)
Lemma same_keys (m w : gmap string Value) :
  size m = size w ->
  (forall key val, m !! key = Some val -> is_Some (w !! key)) ->
  dom m = dom w.
Proof.
  intros Hsize Hsub. apply set_subseteq_size_eq.
  - intros key [val Hk]%elem_of_dom. apply elem_of_dom. by eapply Hsub.
  - rewrite !size_dom. lia.
Qed.

Lemma object_Eq_swap (m w : gmap string Value) :
  (forall key val wVal, m !! key = Some val -> w !! key = Some wVal ->
     Value_Eq host wVal val = Value_Eq host val wVal) ->
  Value_Eq host (ObjectValue m) (ObjectValue w)
  = Value_Eq host (ObjectValue w) (ObjectValue m).
Proof.
  intros Hsym. apply eq_true_iff_eq. rewrite !object_Eq_iff. split.
  - intros [Hsize H]. split; [done|].
    assert (dom m = dom w) as Hdom.
    { apply same_keys; [done|]. intros key val Hk.
      destruct (H key val Hk) as (wVal & -> & _). eauto. }
    intros key wVal Hk.
    assert (is_Some (m !! key)) as [val Hm].
    { apply elem_of_dom. rewrite Hdom. apply elem_of_dom. eauto. }
    exists val. split; [done|].
    destruct (H key val Hm) as (wVal' & Hk' & E).
    assert (wVal' = wVal) as -> by congruence.
    by rewrite (Hsym key val wVal).
  - intros [Hsize H]. split; [done|].
    assert (dom w = dom m) as Hdom.
    { apply same_keys; [done|]. intros key val Hk.
      destruct (H key val Hk) as (wVal & -> & _). eauto. }
    intros key val Hk.
    assert (is_Some (w !! key)) as [wVal Hw].
    { apply elem_of_dom. rewrite Hdom. apply elem_of_dom. eauto. }
    exists wVal. split; [done|].
    destruct (H key wVal Hw) as (val' & Hk' & E).
    assert (val' = val) as -> by congruence.
    by rewrite <- (Hsym key val wVal).
Qed.

Lemma list_Eq_swap (l w : list Value) :
  (forall el wi, el ∈ l -> wi ∈ w ->
     Value_Eq host wi el = Value_Eq host el wi) ->
  Value_Eq host (ListValue l) (ListValue w)
  = Value_Eq host (ListValue w) (ListValue l).
Proof.
  intros Hsym. apply eq_true_iff_eq. rewrite !list_Eq_iff. split.
  - intros [Hlen H]. split; [done|].
    apply (Forall2_swap _ _ _ _ H). intros x y Hx Hy E.
    by rewrite (Hsym x y).
  - intros [Hlen H]. split; [done|].
    apply (Forall2_swap _ _ _ _ H). intros y x Hy Hx E.
    by rewrite <- (Hsym x y).
Qed.

Lemma Eq_sym_depth (n : nat) (v u : Value) :
  (depth v < n)%nat -> definite v -> definite u ->
  Value_Eq host v u = Value_Eq host u v.
Proof.
  revert v u. induction n as [|n IH]; intros v u Hd Hv Hu; [lia|].
  destruct v; try done; destruct u; try done.
  - simpl. apply bool_decide_ext. split; congruence.
  - simpl. apply Z.eqb_sym.
  - simpl. apply float_eqb_sym.
  - simpl. by destruct b, b0.
  - simpl. apply bool_decide_ext. split; congruence.
  - apply list_Eq_swap. intros el wi Hel Hwi. symmetry. apply IH.
    + pose proof (depth_elem l el Hel). lia.
    + exact (definite_elem l el Hv Hel).
    + exact (definite_elem l0 wi Hu Hwi).
  - apply object_Eq_swap. intros key val wVal Hm Hw. symmetry. apply IH.
    + pose proof (depth_entry m key val Hm). lia.
    + exact (definite_entry m key val Hv Hm).
    + exact (definite_entry m0 key wVal Hu Hw).
  - simpl. unfold FnValue_Eq. apply Nat.eqb_sym.
Qed.

End Symmetry.

(** X23. Between values with no empty value (the wildcard) and no builtin
    in them, equality does not depend on which operand is the receiver:
    [v.Eq(u)] is [u.Eq(v)]. For objects, whose loop only looks up the keys
    of the receiver, this rests on the comparison of the numbers of
    entries. With the wildcard it fails: the empty value is equal to a
    function value, which is not equal to it. *)
Theorem Eq_symmetric (host : Natives) :
  (forall v u, definite v -> definite u ->
     Value_Eq host v u = Value_Eq host u v) /\
  (forall defn sc,
     Value_Eq host empty_ (FnValue defn sc)
     <> Value_Eq host (FnValue defn sc) empty_).
Proof.
  split.
  - intros v u Hv Hu.
    apply (Eq_sym_depth host (S (depth v))); [lia | done | done].
  - done.
Qed.
